(** * creme.tree.leaf: Hoeffding-tree leaves and branches

    A shallow embedding of [creme/tree/leaf.py] and the properties of its
    growth machinery: statistics accumulation, the split search, the
    Hoeffding-bound test, the leaf-to-branch replacement protocol and the
    naive-Bayes prediction.

    Conventions of the embedding.
    - Python [int]s are [Z] ([len] results are [nat]).
    - Finite Python [float]s are idealised as real numbers: no rounding, no
      overflow.  The non-finite values the source itself writes
      ([math.inf], [-math.inf]) live in the type [float] below, next to the
      finite ones.
    - An exception is a value of [exn]; code that can raise returns a
      [result].
    - A Python object mutated in place is modelled by its state after the
      call; [self] as a return value is the token [Self], so that returning
      the receiver and returning a freshly built node stay distinct.
    - A [dict] is an association list in insertion order.
    - The collaborators of the module (distributions, split enumerators,
      split candidates) are interfaces; their implementations are not part
      of [leaf.py]. *)

From Stdlib Require Import Reals ZArith List Bool Permutation Lra Lia.
Import ListNotations.

Set Implicit Arguments.

Local Open Scope R_scope.

(** ** Exceptions and results *)

Inductive exn : Type :=
| ValueError
| ZeroDivisionError
| RuntimeError
| KeyError
| TypeError
| AttributeError.

Inductive result (A : Type) : Type :=
| Ok (a : A)
| Raise (e : exn).

Arguments Ok {A} a.
Arguments Raise {A} e.

Definition rbind {A B : Type} (m : result A) (f : A -> result B) : result B :=
  match m with
  | Ok a => f a
  | Raise e => Raise e
  end.

Declare Scope result_scope.
Delimit Scope result_scope with result.
Notation "x <- m ;; k" := (rbind m (fun x => k))
  (at level 61, m at next level, right associativity) : result_scope.
Notation "' p <- m ;; k" := (rbind m (fun p => k))
  (at level 61, p pattern, m at next level, right associativity) : result_scope.
Local Open Scope result_scope.

(** ** Numbers *)

(** A Python float: a finite value, an infinity, or not-a-number. *)
Inductive float : Type :=
| NaN
| NInf
| Fin (r : R)
| PInf.

Definition Rgtb (a b : R) : bool := if Rgt_dec a b then true else false.
Definition Rltb (a b : R) : bool := if Rlt_dec a b then true else false.
Definition Rleb (a b : R) : bool := if Rle_dec a b then true else false.
Definition Reqb (a b : R) : bool := if Req_dec_T a b then true else false.

(** [a > b] on floats; every comparison with [NaN] is false. *)
Definition float_gt (a b : float) : bool :=
  match a, b with
  | NaN, _ | _, NaN => false
  | PInf, PInf => false
  | PInf, _ => true
  | _, PInf => false
  | NInf, _ => false
  | Fin _, NInf => true
  | Fin x, Fin y => Rgtb x y
  end.

(** [a - b] on floats. *)
Definition float_sub (a b : float) : float :=
  match a, b with
  | NaN, _ | _, NaN => NaN
  | PInf, PInf => NaN
  | NInf, NInf => NaN
  | PInf, _ => PInf
  | NInf, _ => NInf
  | Fin _, PInf => NInf
  | Fin _, NInf => PInf
  | Fin x, Fin y => Fin (x - y)
  end.

(** [math.log(x)]: natural logarithm, a domain error off the positive reals. *)
Definition math_log (x : R) : result R :=
  if Rleb x 0 then Raise ValueError else Ok (ln x).

(** [math.log2(x)]: base-2 logarithm. *)
Definition math_log2 (x : R) : result R :=
  if Rleb x 0 then Raise ValueError else Ok (ln x / ln 2).

(** [math.sqrt(x)]. *)
Definition math_sqrt (x : R) : result R :=
  if Rltb x 0 then Raise ValueError else Ok (sqrt x).

(** [a / b] on floats. *)
Definition py_div (a b : R) : result R :=
  if Reqb b 0 then Raise ZeroDivisionError else Ok (a / b).

(** [a % b] on ints: floored modulo, the sign of the divisor. *)
Definition py_mod (a b : Z) : result Z :=
  if (b =? 0)%Z then Raise ZeroDivisionError else Ok (a mod b)%Z.

(** ** Interfaces of the collaborators *)

Class EqDec (A : Type) : Type :=
  eq_dec : forall a b : A, {a = b} + {a <> b}.

(** The Python values used as labels and feature values. *)
Class PyObject (obj : Type) : Type := {
  obj_eq_dec :: EqDec obj;
  (** [isinstance(v, numbers.Number)] *)
  is_number : obj -> bool;
  py_True : obj;
  py_False : obj
}.

(** [creme.proba]: a distribution object is an instance of a class.  Method
    calls change the state of the instance, never its class. *)
Class Distribution (obj : Type) : Type := {
  dclass : Type;
  dstate : Type;
  (** [issubclass(cls, ContinuousDistribution)] *)
  continuous : dclass -> bool;
  (** [cls()] *)
  dnew : dclass -> dstate;
  (** [d.update(v)], which returns [d] *)
  dupdate : dclass -> dstate -> obj -> dstate;
  (** [len(d)] *)
  dlen : dclass -> dstate -> nat;
  (** [iter(d)] *)
  diter : dclass -> dstate -> list obj;
  dpmf : dclass -> dstate -> obj -> R;
  dpdf : dclass -> dstate -> obj -> R;
  dmode : dclass -> dstate -> R
}.

Record dist {obj : Type} {D : Distribution obj} : Type := mkDist {
  dist_class : dclass;
  dist_state : dstate
}.

Arguments dist obj {D}.
Arguments mkDist {obj D} dist_class dist_state.
Arguments dist_class {obj D} d.
Arguments dist_state {obj D} d.

Section DistributionMethods.
Context {obj : Type} {D : Distribution obj}.

Definition isinstance_continuous (d : dist obj) : bool :=
  continuous (dist_class d).

Definition dist_new (c : dclass) : dist obj := mkDist c (dnew c).

Definition dist_update (d : dist obj) (v : obj) : dist obj :=
  mkDist (dist_class d) (dupdate (dist_class d) (dist_state d) v).

Definition dist_len (d : dist obj) : nat := dlen (dist_class d) (dist_state d).
Definition dist_iter (d : dist obj) : list obj := diter (dist_class d) (dist_state d).
Definition dist_pmf (d : dist obj) (v : obj) : R := dpmf (dist_class d) (dist_state d) v.
Definition dist_pdf (d : dist obj) (v : obj) : R := dpdf (dist_class d) (dist_state d) v.
Definition dist_mode (d : dist obj) : R := dmode (dist_class d) (dist_state d).
End DistributionMethods.

(** [creme.tree.splitting]: split candidates and per-feature enumerators.
    A feature vector [x] is a dict from feature names to values. *)
Class Splitting (feature obj : Type) {D : Distribution obj} : Type := {
  split : Type;
  (** [split(x)] *)
  split_call : split -> list (feature * obj) -> bool;
  (** [split.impurity] *)
  impurity : split -> R;
  enum : Type;
  HistSplitEnum : feature -> Z -> enum;
  CategoricalSplitEnum : feature -> enum;
  (** [ss.update(xi, y)] *)
  enum_update : enum -> obj -> obj -> enum;
  (** [ss.enumerate_splits(target_dist, criterion)] *)
  enumerate_splits : enum -> dist obj -> (dist obj -> R) -> list split;
  (** [ss.items()] *)
  enum_items : enum -> list (obj * dist obj)
}.

Arguments Splitting feature obj {D}.

(** ** Dicts *)

Section Dict.
Context {K V : Type} {KE : EqDec K}.

(** [d[k]], [None] standing for [KeyError]. *)
Fixpoint dict_get (k : K) (d : list (K * V)) : option V :=
  match d with
  | [] => None
  | (k', v) :: d' => if eq_dec k k' then Some v else dict_get k d'
  end.

(** [d[k] = v]: an existing key keeps its position, a new key goes last. *)
Fixpoint dict_set (k : K) (v : V) (d : list (K * V)) : list (K * V) :=
  match d with
  | [] => [(k, v)]
  | (k', v') :: d' =>
      if eq_dec k k' then (k, v) :: d' else (k', v') :: dict_set k v d'
  end.

Definition dict_keys (d : list (K * V)) : list K := map fst d.
Definition dict_values (d : list (K * V)) : list V := map snd d.
End Dict.

(** A loop whose body can raise. *)
Fixpoint for_each {A S : Type} (body : S -> A -> result S) (l : list A) (s : S)
  : result S :=
  match l with
  | [] => Ok s
  | a :: l' => s' <- body s a ;; for_each body l' s'
  end.

(** ** The tree *)

Section Tree.
Context {feature obj : Type} {FE : EqDec feature} {PO : PyObject obj}.
Context {D : Distribution obj} {SP : Splitting feature obj}.

(** The shared, read-only configuration every node refers to. *)
Record Tree : Type := mkTree {
  max_depth : Z;
  confidence : R;
  patience : Z;
  tie_threshold : R;
  criterion : dist obj -> R
}.

Record Leaf : Type := mkLeaf {
  depth : Z;
  tree : Tree;
  target_dist : dist obj;
  n_samples : Z;
  split_enums : list (feature * enum)
}.

Inductive node : Type :=
| NLeaf (l : Leaf)
| Branch (b_split : split) (b_left b_right : node) (b_tree : Tree).

(** [Leaf.__init__] *)
Definition Leaf_init (depth : Z) (tree : Tree) (target_dist : dist obj) : Leaf :=
  mkLeaf depth tree target_dist 0 [].

(** What a call of [update] returns: the receiver, or a node built by the
    call. *)
Inductive ref : Type :=
| Self
| New (n : node).

(** The collaborators' searches and the [print] a call performs. *)
Inductive event : Type :=
| Criterion (d : dist obj)
| EnumerateSplits (ss : enum)
| Printed (s : split).

(** A finished call of [update]: the receiver after the call, what the call
    did, and what it returned or raised. *)
Record call : Type := mkCall {
  post : node;
  log : list event;
  ret : result ref
}.

(** The node the caller holds once it has stored the returned reference in
    the slot of the receiver. *)
Definition installed (c : call) : node :=
  match ret c with
  | Ok (New n) => n
  | _ => post c
  end.

(** *** Leaf *)

Definition n_classes (self : Leaf) : result nat :=
  if isinstance_continuous (target_dist self) then Raise ValueError
  else Ok (dist_len (target_dist self)).

Definition is_pure (self : Leaf) : result bool :=
  match n_classes self with
  | Ok k => Ok (k <? 2)%nat
  | Raise ValueError => Ok false
  | Raise e => Raise e
  end.

Definition hoeffding_bound (self : Leaf) : result R :=
  k <- n_classes self ;;
  R_ <- math_log (INR k) ;;
  let n := n_samples self in
  let delta := confidence (tree self) in
  inv <- py_div 1 delta ;;
  lg <- math_log2 inv ;;
  q <- py_div (R_ ^ 2 * lg) (IZR (2 * n)) ;;
  math_sqrt q.

(** The body of the inner loop of [find_best_split]. *)
Definition consider (current_impurity : R)
  (st : float * float * option split) (s : split)
  : float * float * option split :=
  let '(best_gain, second_best_gain, best_split) := st in
  let gain := Fin (current_impurity - impurity s) in
  if float_gt gain best_gain then (gain, best_gain, Some s)
  else if float_gt gain second_best_gain then (best_gain, gain, best_split)
  else (best_gain, second_best_gain, best_split).

Definition find_best_split (self : Leaf) : list event * result (split * float) :=
  let current_impurity := criterion (tree self) (target_dist self) in
  let '(best_gain, second_best_gain, best_split) :=
    fold_left
      (fun st ss =>
         fold_left (consider current_impurity)
           (enumerate_splits (snd ss) (target_dist self) (criterion (tree self)))
           st)
      (split_enums self) (NInf, NInf, None) in
  (Criterion (target_dist self)
     :: map (fun ss => EnumerateSplits (snd ss)) (split_enums self),
   match best_split with
   | None => Raise RuntimeError
   | Some s => Ok (s, float_sub best_gain second_best_gain)
   end).

(** One turn of the loop over [x.items()] in [update]. *)
Definition observe (y : obj) (enums : list (feature * enum)) (ixi : feature * obj)
  : list (feature * enum) :=
  let (i, xi) := ixi in
  match dict_get i enums with
  | Some ss => dict_set i (enum_update ss xi y) enums
  | None =>
      let ss := if is_number xi then HistSplitEnum i 30
                else CategoricalSplitEnum i in
      dict_set i (enum_update ss xi y) enums
  end.

(** The first half of [update]: the statistics after the example. *)
Definition absorb (self : Leaf) (x : list (feature * obj)) (y : obj) : Leaf :=
  mkLeaf (depth self) (tree self)
    (dist_update (target_dist self) y)
    (n_samples self + 1)
    (fold_left (observe y) x (split_enums self)).

(** The test that ends [update] before any search: [true] when splitting is
    not authorized. *)
Definition not_authorized (self : Leaf) : result bool :=
  if (depth self >=? max_depth (tree self))%Z then Ok true
  else
    pure <- is_pure self ;;
    if (pure : bool) then Ok true
    else
      r <- py_mod (n_samples self) (patience (tree self)) ;;
      Ok (negb (r =? 0)%Z).

(** The distribution a child starts from. *)
Definition child_dist (self : Leaf) : dist obj :=
  dist_update (dist_update (dist_new (dist_class (target_dist self))) py_True) py_False.

Definition child (self : Leaf) : node :=
  NLeaf (Leaf_init (depth self + 1) (tree self) (child_dist self)).

Definition Leaf_update (self0 : Leaf) (x : list (feature * obj)) (y : obj) : call :=
  let self := absorb self0 x y in
  match not_authorized self with
  | Raise e => mkCall (NLeaf self) [] (Raise e)
  | Ok true => mkCall (NLeaf self) [] (Ok Self)
  | Ok false =>
      let (searched, found) := find_best_split self in
      match found with
      | Raise e => mkCall (NLeaf self) searched (Raise e)
      | Ok (split, gain) =>
          match hoeffding_bound self with
          | Raise e => mkCall (NLeaf self) searched (Raise e)
          | Ok eps =>
              if float_gt gain (Fin eps) || Rltb eps (tie_threshold (tree self))
              then
                mkCall (NLeaf self) (searched ++ [Printed split])
                  (Ok (New (Branch split (child self) (child self) (tree self))))
              else mkCall (NLeaf self) searched (Ok Self)
          end
      end
  end.

(** *** Nodes: [size], [get_leaf] and [update] dispatch on the class *)

Fixpoint size (n : node) : Z :=
  match n with
  | NLeaf _ => 1
  | Branch _ l r _ => size l + size r
  end.

Fixpoint get_leaf (n : node) (x : list (feature * obj)) : Leaf :=
  match n with
  | NLeaf l => l
  | Branch s l r _ => if split_call s x then get_leaf l x else get_leaf r x
  end.

Fixpoint update (n : node) (x : list (feature * obj)) (y : obj) : call :=
  match n with
  | NLeaf l => Leaf_update l x y
  | Branch s l r t =>
      if split_call s x then
        let c := update l x y in
        match ret c with
        | Ok _ => mkCall (Branch s (installed c) r t) (log c) (Ok Self)
        | Raise e => mkCall (Branch s (post c) r t) (log c) (Raise e)
        end
      else
        let c := update r x y in
        match ret c with
        | Ok _ => mkCall (Branch s l (installed c) t) (log c) (Ok Self)
        | Raise e => mkCall (Branch s l (post c) t) (log c) (Raise e)
        end
  end.

(** *** Prediction *)

(** [predict] returns a scalar for a continuous target and a dict from
    classes to probabilities for a discrete one. *)
Inductive prediction : Type :=
| Scalar (m : R)
| Mapping (d : list (obj * R)).

Definition predict (self : Leaf) (x : list (feature * obj)) : prediction :=
  if isinstance_continuous (target_dist self) then
    Scalar (dist_mode (target_dist self))
  else
    Mapping
      (fold_left (fun d c => dict_set c (dist_pmf (target_dist self) c) d)
         (dist_iter (target_dist self)) []).

(** [y_pred[label] *= dist.pdf(xi)] or [dist.pmf(xi)], for one item of an
    enumerator. *)
Definition fold_in (xi : obj) (y_pred : prediction) (item : obj * dist obj)
  : result prediction :=
  let (label, dist) := item in
  match y_pred with
  | Scalar _ => Raise TypeError
  | Mapping d =>
      match dict_get label d with
      | None => Raise KeyError
      | Some p =>
          let likelihood :=
            if isinstance_continuous dist then dist_pdf dist xi
            else dist_pmf dist xi in
          Ok (Mapping (dict_set label (p * likelihood) d))
      end
  end.

(** One turn of the loop over [x.items()] in [predict_naive_bayes]. *)
Definition fold_feature (self : Leaf) (y_pred : prediction) (ixi : feature * obj)
  : result prediction :=
  let (i, xi) := ixi in
  match dict_get i (split_enums self) with
  | Some ss => for_each (fold_in xi) (enum_items ss) y_pred
  | None => Ok y_pred
  end.

(** [sum(values)] *)
Definition sum (values : list R) : R := fold_left Rplus values 0.

(** [y_pred[label] /= total] for every item of [y_pred]. *)
Definition normalize (total : R) (y_pred : list (obj * R)) : list (obj * R) :=
  fold_left
    (fun d item =>
       match dict_get (fst item) d with
       | Some p => dict_set (fst item) (p / total) d
       | None => d
       end)
    y_pred y_pred.

Definition predict_naive_bayes (self : Leaf) (x : list (feature * obj))
  : result (list (obj * R)) :=
  y_pred <- for_each (fold_feature self) x (predict self x) ;;
  match y_pred with
  | Scalar _ => Raise AttributeError
  | Mapping d =>
      let total := sum (dict_values d) in
      if Reqb total 0 then
        Ok (map (fun label => (label, 1 / INR (length d))) (dict_keys d))
      else Ok (normalize total d)
  end.

(** *** Vocabulary of the statements *)

(** Every candidate the enumerators of the leaf propose, in the order the
    search meets them. *)
Definition candidates (self : Leaf) : list split :=
  flat_map
    (fun ss : feature * enum =>
       enumerate_splits (snd ss) (target_dist self) (criterion (tree self)))
    (split_enums self).

(** The gain of a candidate: current impurity minus candidate impurity. *)
Definition gain (self : Leaf) (s : split) : R :=
  criterion (tree self) (target_dist self) - impurity s.

(** The leaf, with the example absorbed, passes the three tests of [update]
    and goes on to the split search: it is below the depth limit, it is not
    pure, and its sample count is an exact multiple of the patience. *)
Definition reaches_split_check (self : Leaf) : Prop :=
  (depth self < max_depth (tree self))%Z /\
  is_pure self = Ok false /\
  (patience (tree self) <> 0)%Z /\
  (n_samples self mod patience (tree self) = 0)%Z.

(** Every value of a dict of scores or probabilities is non-negative. *)
Definition nonneg_values (d : list (obj * R)) : Prop :=
  forall k v, In (k, v) d -> 0 <= v.

(** The highest of a list of gains, [-inf] for the empty list. *)
Definition highest (gains : list R) : float :=
  fold_left (fun m g => if float_gt (Fin g) m then Fin g else m) gains NInf.

(** The quantity [hoeffding_bound] takes the square root of, for [k]
    classes, confidence [delta] and [n] samples. *)
Definition radicand (k : nat) (delta : R) (n : Z) : R :=
  ln (INR k) ^ 2 * (ln (1 / delta) / ln 2) / IZR (2 * n).

(** Every leaf of a tree satisfies [P]. *)
Fixpoint all_leaves (P : Leaf -> Prop) (n : node) : Prop :=
  match n with
  | NLeaf l => P l
  | Branch _ l r _ => all_leaves P l /\ all_leaves P r
  end.

(** The tree hangs together below level [d]: every leaf records the level
    it sits at, and every node refers to the configuration [t]. *)
Fixpoint levelled (d : Z) (t : Tree) (n : node) : Prop :=
  match n with
  | NLeaf l => depth l = d /\ tree l = t
  | Branch _ l r t' => t' = t /\ levelled (d + 1) t l /\ levelled (d + 1) t r
  end.

(** The enumerator a feature starts with, by the kind of its first value. *)
Definition new_enum (i : feature) (xi : obj) : enum :=
  if is_number xi then HistSplitEnum i 30 else CategoricalSplitEnum i.

(** The Hoeffding bound as the specification writes it:
    [sqrt (R^2 * ln (1 / delta) / (2 * n))] with [R] the natural logarithm
    of the number of classes. *)
Definition hoeffding_bound_spec (k : nat) (delta : R) (n : Z) : R :=
  sqrt (ln (INR k) ^ 2 * ln (1 / delta) / IZR (2 * n)).

End Tree.

Arguments Tree obj {D}.
Arguments Leaf feature obj {D SP}.
Arguments node feature obj {D SP}.
Arguments call feature obj {D SP}.
Arguments ref feature obj {D SP}.
Arguments event feature obj {D SP}.

(** ** A small set of collaborators

    Counting distributions and table enumerators, simple enough to run an
    example through the tree by hand.  They stand in for [creme.proba] and
    [creme.tree.splitting] in the examples at the end of the file. *)

Module Fixture.

Inductive pyval : Type :=
| PBool (b : bool)
| PInt (z : Z)
| PStr (s : nat).

#[export] Instance pyval_eq_dec : EqDec pyval.
Proof.
  intros a b; unfold EqDec; decide equality;
    [apply bool_dec | apply Z.eq_dec | apply Nat.eq_dec].
Defined.

#[export] Instance nat_eq_dec : EqDec nat := Nat.eq_dec.

#[export] Instance pyval_object : PyObject pyval := {|
  is_number := fun v => match v with PStr _ => false | _ => true end;
  py_True := PBool true;
  py_False := PBool false
|}.

(** Two distribution classes: a counter of the values seen, and a numeric
    summary that counts nothing. *)
Inductive cls : Type :=
| Multinomial
| Gaussian.

(** [counts[v] += 1] *)
Definition bump (v : pyval) (counts : list (pyval * nat)) : list (pyval * nat) :=
  match dict_get v counts with
  | Some c => dict_set v (S c) counts
  | None => dict_set v 1%nat counts
  end.

Definition total (counts : list (pyval * nat)) : nat :=
  fold_right Nat.add 0%nat (dict_values counts).

Definition count (v : pyval) (counts : list (pyval * nat)) : nat :=
  match dict_get v counts with Some c => c | None => 0%nat end.

#[export] Instance counting : Distribution pyval := {|
  dclass := cls;
  dstate := list (pyval * nat);
  continuous := fun c => match c with Gaussian => true | Multinomial => false end;
  dnew := fun _ => [];
  dupdate := fun _ st v => bump v st;
  dlen := fun _ st => length st;
  diter := fun _ st => dict_keys st;
  dpmf := fun _ st v => INR (count v st) / INR (total st);
  dpdf := fun _ _ _ => 0;
  dmode := fun _ _ => 0
|}.

(** A candidate tests one feature against one value. *)
Record candidate : Type := mkCandidate {
  c_feature : nat;
  c_value : pyval;
  c_impurity : R
}.

Definition candidate_call (c : candidate) (x : list (nat * pyval)) : bool :=
  match dict_get (c_feature c) x with
  | Some v => if eq_dec v (c_value c) then true else false
  | None => false
  end.

(** An enumerator keeps the rows [(xi, y)] it was fed. *)
Record table : Type := mkTable {
  t_feature : nat;
  t_rows : list (pyval * pyval)
}.

(** The per-label distributions of the values of the feature. *)
Definition table_items (t : table) : list (pyval * dist pyval) :=
  fold_left
    (fun (items : list (pyval * dist pyval)) (row : pyval * pyval) =>
       let '(xi, y) := row in
       match dict_get y items with
       | Some d => dict_set y (dist_update d xi) items
       | None => dict_set y (dist_update (dist_new Multinomial) xi) items
       end)
    (t_rows t) [].

(** One candidate per row: the test on the value of the row, scored [0]
    when the row is labelled [True] and [1] otherwise. *)
Definition table_splits (t : table) : list candidate :=
  map (fun row : pyval * pyval =>
         mkCandidate (t_feature t) (fst row)
           (if eq_dec (snd row) (PBool true) then 0 else 1))
      (t_rows t).

#[export] Instance tables : Splitting nat pyval := {|
  split := candidate;
  split_call := candidate_call;
  impurity := c_impurity;
  enum := table;
  HistSplitEnum := fun i _ => mkTable i [];
  CategoricalSplitEnum := fun i => mkTable i [];
  enum_update := fun t xi y => mkTable (t_feature t) (t_rows t ++ [(xi, y)]);
  enumerate_splits := fun t _ _ => table_splits t;
  enum_items := table_items
|}.

(** A tree configuration: depth limit 3, confidence 1/2, a check at every
    example, no tie escape, and a criterion that scores every distribution 1. *)
Definition config : Tree pyval :=
  mkTree 3 (1 / 2) 1 0 (fun _ => 1).

Definition root : Leaf nat pyval := Leaf_init 0 config (dist_new Multinomial).

(** Two examples on feature [0], labelled [True] and [False], and a third
    labelled [True] again. *)
Definition x1 : list (nat * pyval) := [(0%nat, PInt 1)].
Definition x2 : list (nat * pyval) := [(0%nat, PInt 2)].

(** The root after the first, the second and the third example. *)
Definition leaf1 : Leaf nat pyval := absorb root x1 (PBool true).
Definition leaf2 : Leaf nat pyval := absorb leaf1 x2 (PBool false).
Definition leaf3 : Leaf nat pyval := absorb leaf2 x1 (PBool true).

(** The two candidates [leaf2] proposes. *)
Definition candidate1 : candidate := mkCandidate 0 (PInt 1) 0.
Definition candidate2 : candidate := mkCandidate 0 (PInt 2) 1.

(** The root after a first example without any feature, and after a second
    example with one. *)
Definition bare1 : Leaf nat pyval := absorb root [] (PBool true).
Definition bare2 : Leaf nat pyval := absorb bare1 x2 (PBool false).

(** The root after the same two examples in the other order. *)
Definition swapped2 : Leaf nat pyval :=
  absorb (absorb root x2 (PBool false)) x1 (PBool true).

(** The same tree with a patience of zero. *)
Definition config0 : Tree pyval :=
  mkTree 3 (1 / 2) 0 0 (fun _ => 1).

Definition impatient1 : Leaf nat pyval :=
  absorb (Leaf_init 0 config0 (dist_new Multinomial)) x1 (PBool true).

(** A leaf assembled by hand, as the docstring of [predict_naive_bayes]
    does: its enumerator knows the label [5], its target distribution has
    only seen [True]. *)
Definition stale : Leaf nat pyval :=
  mkLeaf 0 config (dist_update (dist_new Multinomial) (PBool true)) 1
    [(0%nat, mkTable 0 [(PInt 1, PStr 5)])].

(** A leaf over a continuous target. *)
Definition numeric_root : Leaf nat pyval :=
  Leaf_init 0 config (dist_new Gaussian).

End Fixture.

(** ** Properties *)

Unset Implicit Arguments.

(** *** Comparisons and the [math] functions *)

Ltac decide_R :=
  unfold Rgtb, Rltb, Rleb, Reqb in *;
  repeat match goal with
  | |- context [Rgt_dec ?a ?b] => destruct (Rgt_dec a b)
  | |- context [Rlt_dec ?a ?b] => destruct (Rlt_dec a b)
  | |- context [Rle_dec ?a ?b] => destruct (Rle_dec a b)
  | |- context [Req_dec_T ?a ?b] => destruct (Req_dec_T a b)
  | H : context [Rgt_dec ?a ?b] |- _ => destruct (Rgt_dec a b)
  | H : context [Rlt_dec ?a ?b] |- _ => destruct (Rlt_dec a b)
  | H : context [Rle_dec ?a ?b] |- _ => destruct (Rle_dec a b)
  | H : context [Req_dec_T ?a ?b] |- _ => destruct (Req_dec_T a b)
  end.

Lemma Rgtb_true (a b : R) : Rgtb a b = true <-> a > b.
Proof. decide_R; split; intros; try easy; lra. Qed.

Lemma Rltb_true (a b : R) : Rltb a b = true <-> a < b.
Proof. decide_R; split; intros; try easy; lra. Qed.

Lemma Rleb_false (a b : R) : Rleb a b = false <-> b < a.
Proof. decide_R; split; intros; try easy; lra. Qed.

Lemma Reqb_false (a b : R) : Reqb a b = false <-> a <> b.
Proof. decide_R; split; intros; try easy; lra. Qed.

Lemma math_log_pos (x : R) : 0 < x -> math_log x = Ok (ln x).
Proof. intros Hx; unfold math_log; now rewrite (proj2 (Rleb_false x 0) Hx). Qed.

Lemma math_log2_pos (x : R) : 0 < x -> math_log2 x = Ok (ln x / ln 2).
Proof. intros Hx; unfold math_log2; now rewrite (proj2 (Rleb_false x 0) Hx). Qed.

Lemma math_sqrt_nonneg (x : R) : 0 <= x -> math_sqrt x = Ok (sqrt x).
Proof. intros Hx; unfold math_sqrt; decide_R; [lra | reflexivity]. Qed.

Lemma py_div_nonzero (a b : R) : b <> 0 -> py_div a b = Ok (a / b).
Proof. intros Hb; unfold py_div; now rewrite (proj2 (Reqb_false b 0) Hb). Qed.

Lemma ln_2_pos : 0 < ln 2.
Proof. rewrite <- ln_1; apply ln_increasing; lra. Qed.

Lemma ln_2_lt_1 : ln 2 < 1.
Proof.
  assert (H : 2 < exp 1) by (pose proof (exp_ineq1 1); lra).
  apply Rlt_le_trans with (ln (exp 1)).
  - apply ln_increasing; lra.
  - rewrite ln_exp. lra.
Qed.

Lemma ln_INR_pos (k : nat) : (2 <= k)%nat -> 0 < ln (INR k).
Proof.
  intros Hk. rewrite <- ln_1. apply ln_increasing; [lra|].
  apply le_INR in Hk. simpl in Hk. lra.
Qed.

Lemma log2_inv_nonneg (delta : R) :
  0 < delta <= 1 -> 0 <= ln (1 / delta) / ln 2.
Proof.
  intros [H0 H1].
  assert (Hinv : 1 <= 1 / delta).
  { apply Rmult_le_reg_r with delta; [lra|]. field_simplify; lra. }
  assert (Hln : 0 <= ln (1 / delta)).
  { destruct Hinv as [Hlt | Heq].
    - rewrite <- ln_1. left. apply ln_increasing; lra.
    - rewrite <- Heq, ln_1. lra. }
  pose proof ln_2_pos. apply Rmult_le_pos; [lra|].
  left. now apply Rinv_0_lt_compat.
Qed.

Lemma log2_inv_pos (delta : R) :
  0 < delta < 1 -> 0 < ln (1 / delta) / ln 2.
Proof.
  intros [H0 H1].
  assert (Hinv : 1 < 1 / delta).
  { apply Rmult_lt_reg_r with delta; [lra|]. field_simplify; lra. }
  assert (Hln : 0 < ln (1 / delta)).
  { rewrite <- ln_1. apply ln_increasing; lra. }
  pose proof ln_2_pos. apply Rmult_lt_0_compat; [lra|].
  now apply Rinv_0_lt_compat.
Qed.

Lemma radicand_nonneg (k : nat) (delta : R) (n : Z) :
  0 < delta <= 1 -> (0 < n)%Z -> 0 <= radicand k delta n.
Proof.
  intros Hd Hn. unfold radicand.
  assert (H2n : 0 < IZR (2 * n)) by (apply IZR_lt; lia).
  apply Rmult_le_pos.
  - apply Rmult_le_pos; [apply pow2_ge_0 | now apply log2_inv_nonneg].
  - left. now apply Rinv_0_lt_compat.
Qed.

Section TreeProperties.
Context {feature obj : Type} {FE : EqDec feature} {PO : PyObject obj}.
Context {D : Distribution obj} {SP : Splitting feature obj}.

Implicit Types (self : Leaf feature obj) (x : list (feature * obj)) (y : obj).

(** *** The Hoeffding bound *)

(** What [hoeffding_bound] computes on a discrete target with at least one
    class, a confidence in (0, 1] and at least one sample. *)
Lemma hoeffding_bound_value self (k : nat) :
  isinstance_continuous (target_dist self) = false ->
  dist_len (target_dist self) = k ->
  (1 <= k)%nat ->
  0 < confidence (tree self) <= 1 ->
  (0 < n_samples self)%Z ->
  hoeffding_bound self
  = Ok (sqrt (radicand k (confidence (tree self)) (n_samples self))).
Proof.
  intros Hc Hlen Hk Hd Hn.
  unfold hoeffding_bound, n_classes. rewrite Hc, Hlen. cbn [rbind].
  assert (HkR : 0 < INR k) by (apply lt_0_INR; lia).
  rewrite (math_log_pos _ HkR). cbn [rbind].
  rewrite py_div_nonzero by lra. cbn [rbind].
  assert (Hinv : 0 < 1 / confidence (tree self)).
  { apply Rdiv_lt_0_compat; lra. }
  rewrite (math_log2_pos _ Hinv). cbn [rbind].
  assert (H2n : 0 < IZR (2 * n_samples self)) by (apply IZR_lt; lia).
  rewrite py_div_nonzero by lra. cbn [rbind].
  apply math_sqrt_nonneg. now apply radicand_nonneg.
Qed.

(** C9: with the number of observed classes (at least 2) and the confidence
    (strictly between 0 and 1) fixed, [hoeffding_bound] returns a value at
    every positive sample count, and the value at the larger count is
    strictly smaller. *)
Theorem hoeffding_bound_strictly_decreasing self1 self2 (k : nat) (delta : R) :
  isinstance_continuous (target_dist self1) = false ->
  isinstance_continuous (target_dist self2) = false ->
  dist_len (target_dist self1) = k ->
  dist_len (target_dist self2) = k ->
  (2 <= k)%nat ->
  confidence (tree self1) = delta ->
  confidence (tree self2) = delta ->
  0 < delta < 1 ->
  (0 < n_samples self1 < n_samples self2)%Z ->
  exists eps1 eps2 : R,
    hoeffding_bound self1 = Ok eps1 /\
    hoeffding_bound self2 = Ok eps2 /\
    eps2 < eps1.
Proof.
  intros Hc1 Hc2 Hl1 Hl2 Hk Hd1 Hd2 Hd [Hn1 Hn12].
  exists (sqrt (radicand k delta (n_samples self1))),
         (sqrt (radicand k delta (n_samples self2))).
  split; [|split].
  - rewrite <- Hd1. apply hoeffding_bound_value; auto; try lia. rewrite Hd1; lra.
  - rewrite <- Hd2. apply hoeffding_bound_value; auto; try lia. rewrite Hd2; lra.
  - apply sqrt_lt_1_alt. split.
    + apply radicand_nonneg; [lra | lia].
    + unfold radicand.
      assert (Hnum : 0 < ln (INR k) ^ 2 * (ln (1 / delta) / ln 2)).
      { apply Rmult_lt_0_compat; [|now apply log2_inv_pos].
        pose proof (ln_INR_pos _ Hk). nra. }
      assert (H1 : 0 < IZR (2 * n_samples self1)) by (apply IZR_lt; lia).
      assert (H12 : IZR (2 * n_samples self1) < IZR (2 * n_samples self2))
        by (apply IZR_lt; lia).
      apply Rmult_lt_compat_l; [exact Hnum|].
      apply Rinv_lt_contravar; [nra | exact H12].
Qed.

(** *** The split search *)

Lemma fold_left_nested {A B S : Type} (f : S -> B -> S) (g : A -> list B)
  (l : list A) (s : S) :
  fold_left (fun st a => fold_left f (g a) st) l s = fold_left f (flat_map g l) s.
Proof.
  revert s; induction l as [|a l IH]; intros s; cbn; [reflexivity|].
  now rewrite fold_left_app, IH.
Qed.

Lemma highest_snoc (l : list R) (g : R) :
  highest (l ++ [g])
  = if float_gt (Fin g) (highest l) then Fin g else highest l.
Proof. unfold highest. now rewrite fold_left_app. Qed.

(** [highest] is [-inf] on the empty list and otherwise a member of the list
    that bounds every member. *)
Lemma highest_spec (l : list R) :
  match highest l with
  | NInf => l = []
  | Fin h => In h l /\ forall g, In g l -> g <= h
  | _ => False
  end.
Proof.
  induction l as [|g l IH] using rev_ind; [reflexivity|].
  rewrite highest_snoc. destruct (highest l) as [| |h|]; try contradiction.
  - subst l. cbn. split; [now left|]. intros g' [<-|[]]; lra.
  - destruct IH as [Hin Hle]. cbn. unfold Rgtb. destruct (Rgt_dec g h) as [Hgt|Hngt].
    + split; [apply in_or_app; right; now left|].
      intros g' Hg'. apply in_app_or in Hg' as [Hg'|[<-|[]]]; [|lra].
      specialize (Hle _ Hg'). lra.
    + split; [apply in_or_app; now left|].
      intros g' Hg'. apply in_app_or in Hg' as [Hg'|[<-|[]]]; [auto|lra].
Qed.

Lemma highest_attained (l : list R) (h : R) :
  In h l -> (forall g, In g l -> g <= h) -> highest l = Fin h.
Proof.
  intros Hin Hle. pose proof (highest_spec l) as Hs.
  destruct (highest l) as [| |h'|]; try contradiction.
  - subst l. destruct Hin.
  - destruct Hs as [Hin' Hle']. f_equal.
    specialize (Hle _ Hin'). specialize (Hle' _ Hin). lra.
Qed.

(** The state of the search after a non-empty run of candidates: the first
    candidate of highest gain, its gain, and the highest gain among the
    others. *)
Lemma search_invariant self (cs : list split) :
  cs <> [] ->
  exists before s after,
    cs = before ++ s :: after /\
    (forall c, In c before -> gain self c < gain self s) /\
    (forall c, In c after -> gain self c <= gain self s) /\
    fold_left (consider (criterion (tree self) (target_dist self))) cs
      (NInf, NInf, None)
    = (Fin (gain self s),
       highest (map (gain self) (before ++ after)),
       Some s).
Proof.
  induction cs as [|c cs IH] using rev_ind; [congruence|]. intros _.
  rewrite fold_left_app. cbn [fold_left].
  destruct cs as [|c0 cs0].
  - (* the first candidate *)
    exists [], c, []. cbn.
    repeat split; intros ? [].
  - destruct IH as (before & s & after & Hcs & Hb & Ha & Hst); [congruence|].
    rewrite Hst, Hcs. unfold consider. fold (gain self c).
    destruct (float_gt (Fin (gain self c)) (Fin (gain self s))) eqn:Hbest.
    + (* a new best *)
      apply Rgtb_true in Hbest.
      exists (before ++ s :: after), c, []. rewrite app_nil_r.
      split; [reflexivity|]. split; [|split; [intros ? []|]].
      * intros c' Hc'.
        apply in_app_or in Hc' as [Hc'|[<-|Hc']];
          [specialize (Hb _ Hc') | | specialize (Ha _ Hc')]; lra.
      * f_equal. f_equal. symmetry. apply highest_attained.
        -- apply in_map, in_or_app. right; now left.
        -- intros g Hg. apply in_map_iff in Hg as (c' & <- & Hc').
           apply in_app_or in Hc' as [Hc'|[<-|Hc']];
             [specialize (Hb _ Hc') | | specialize (Ha _ Hc')]; lra.
    + assert (Hle : gain self c <= gain self s).
      { cbn in Hbest. unfold Rgtb in Hbest.
        destruct (Rgt_dec (gain self c) (gain self s)); [discriminate | lra]. }
      exists before, s, (after ++ [c]).
      split; [rewrite <- app_assoc; reflexivity|].
      split; [exact Hb|]. split.
      * intros c' Hc'. apply in_app_or in Hc' as [Hc'|[<-|[]]]; [auto|lra].
      * assert (Hh : highest (map (gain self) (before ++ after ++ [c]))
                     = if float_gt (Fin (gain self c))
                            (highest (map (gain self) (before ++ after)))
                       then Fin (gain self c)
                       else highest (map (gain self) (before ++ after))).
        { rewrite app_assoc, map_app. apply highest_snoc. }
        rewrite Hh.
        destruct (float_gt (Fin (gain self c))
                    (highest (map (gain self) (before ++ after))));
          reflexivity.
Qed.

(** What [find_best_split] returns, in terms of the candidates. *)
Lemma find_best_split_result self :
  snd (find_best_split self)
  = match fold_left (consider (criterion (tree self) (target_dist self)))
            (candidates self) (NInf, NInf, None) with
    | (best_gain, second_best_gain, Some s) =>
        Ok (s, float_sub best_gain second_best_gain)
    | (_, _, None) => Raise RuntimeError
    end.
Proof.
  unfold find_best_split, candidates.
  rewrite <- (fold_left_nested
                (consider (criterion (tree self) (target_dist self)))
                (fun ss : feature * enum =>
                   enumerate_splits (snd ss) (target_dist self)
                     (criterion (tree self)))).
  destruct (fold_left _ (split_enums self) _) as [[bg sbg] [s|]]; reflexivity.
Qed.

Lemma find_best_split_log self :
  fst (find_best_split self)
  = Criterion (target_dist self)
      :: map (fun ss => EnumerateSplits (snd ss)) (split_enums self).
Proof.
  unfold find_best_split.
  destruct (fold_left _ (split_enums self) _) as [[bg sbg] bs]; reflexivity.
Qed.

Lemma find_best_split_empty self :
  candidates self = [] -> snd (find_best_split self) = Raise RuntimeError.
Proof. intros H. rewrite find_best_split_result, H. reflexivity. Qed.

Lemma find_best_split_found self :
  candidates self <> [] ->
  exists before s after,
    candidates self = before ++ s :: after /\
    (forall c, In c before -> gain self c < gain self s) /\
    (forall c, In c after -> gain self c <= gain self s) /\
    snd (find_best_split self)
    = Ok (s, float_sub (Fin (gain self s))
               (highest (map (gain self) (before ++ after)))).
Proof.
  intros Hne. rewrite find_best_split_result.
  destruct (search_invariant self _ Hne)
    as (before & s & after & Hcs & Hb & Ha & Hst).
  exists before, s, after. rewrite Hst. auto.
Qed.

(** *** Purity and the authorization test *)

Lemma is_pure_value self :
  is_pure self
  = Ok (if isinstance_continuous (target_dist self) then false
        else (dist_len (target_dist self) <? 2)%nat).
Proof.
  unfold is_pure, n_classes.
  destruct (isinstance_continuous (target_dist self)); reflexivity.
Qed.

Lemma not_authorized_false self :
  reaches_split_check self <-> not_authorized self = Ok false.
Proof.
  unfold reaches_split_check, not_authorized, py_mod.
  rewrite is_pure_value. cbn [rbind].
  destruct (Z.geb_spec (depth self) (max_depth (tree self))) as [Hd|Hd].
  { split; [intros (H & _); lia | discriminate]. }
  destruct (if isinstance_continuous (target_dist self) then false
            else (dist_len (target_dist self) <? 2)%nat).
  { split; [intros (_ & H & _); discriminate | discriminate]. }
  destruct (Z.eqb_spec (patience (tree self)) 0) as [Hp|Hp]; cbn [rbind].
  { split; [intros (_ & _ & H & _); contradiction | discriminate]. }
  destruct (Z.eqb_spec (n_samples self mod patience (tree self)) 0) as [Hm|Hm];
    cbn [negb].
  - split; auto.
  - split; [intros (_ & _ & _ & H); contradiction | discriminate].
Qed.

Lemma Leaf_update_stops self0 x y :
  not_authorized (absorb self0 x y) = Ok true ->
  Leaf_update self0 x y = mkCall (NLeaf (absorb self0 x y)) [] (Ok Self).
Proof. intros H. unfold Leaf_update. now rewrite H. Qed.

(** [update] past the authorization test: the search, the bound, the
    comparison. *)
Lemma Leaf_update_searches self0 x y :
  reaches_split_check (absorb self0 x y) ->
  Leaf_update self0 x y
  = let self := absorb self0 x y in
    let searched := fst (find_best_split self) in
    match snd (find_best_split self) with
    | Raise e => mkCall (NLeaf self) searched (Raise e)
    | Ok (s, margin) =>
        match hoeffding_bound self with
        | Raise e => mkCall (NLeaf self) searched (Raise e)
        | Ok eps =>
            if float_gt margin (Fin eps) || Rltb eps (tie_threshold (tree self))
            then mkCall (NLeaf self) (searched ++ [Printed s])
                   (Ok (New (Branch s (child self) (child self) (tree self))))
            else mkCall (NLeaf self) searched (Ok Self)
        end
    end.
Proof.
  intros H. apply not_authorized_false in H.
  unfold Leaf_update. rewrite H. cbv zeta.
  destruct (find_best_split (absorb self0 x y)) as [searched [[s margin]|e]];
    reflexivity.
Qed.

(** C2 (amended): once the example is absorbed, if the depth of the leaf is
    at or beyond [max_depth], or the leaf is pure (a discrete target with
    fewer than 2 observed classes; a continuous target is never pure), or
    [patience] is non-zero and [n_samples] is not an exact multiple of it,
    then [update] returns the leaf itself: the receiver is the leaf with the
    example absorbed, no search and no [print] happened, and no node was
    built. *)
Theorem update_returns_self_when_not_authorized self0 x y :
  let self := absorb self0 x y in
  (depth self >= max_depth (tree self))%Z \/
  (isinstance_continuous (target_dist self) = false /\
   (dist_len (target_dist self) < 2)%nat) \/
  (patience (tree self) <> 0 /\
   n_samples self mod patience (tree self) <> 0)%Z ->
  Leaf_update self0 x y = mkCall (NLeaf self) [] (Ok Self) /\
  is_pure self
  = Ok (if isinstance_continuous (target_dist self) then false
        else (dist_len (target_dist self) <? 2)%nat).
Proof.
  intros self H. split; [|apply is_pure_value].
  apply Leaf_update_stops. fold self.
  unfold not_authorized, py_mod. rewrite is_pure_value. cbn [rbind].
  destruct (Z.geb_spec (depth self) (max_depth (tree self))) as [Hd|Hd];
    [reflexivity|].
  destruct H as [H | [[Hc Hlen] | [Hp Hm]]]; [lia | |].
  - rewrite Hc. apply Nat.ltb_lt in Hlen. now rewrite Hlen.
  - destruct (if isinstance_continuous (target_dist self) then false
              else (dist_len (target_dist self) <? 2)%nat); [reflexivity|].
    destruct (Z.eqb_spec (patience (tree self)) 0) as [|_]; [contradiction|].
    cbn [rbind].
    destruct (Z.eqb_spec (n_samples self mod patience (tree self)) 0);
      [contradiction | reflexivity].
Qed.

(** *** The split decision *)



(** C4: when a leaf splits, the two children of the new [Branch] are fresh
    leaves one level below the parent, with no sample and no enumerator,
    over a distribution built from the class of the parent's distribution
    alone: default-constructed, then updated with [True] and with [False]. *)
Theorem split_children_are_fresh self0 x y b :
  ret (Leaf_update self0 x y) = Ok (New b) ->
  let fresh :=
    mkLeaf (depth self0 + 1) (tree self0)
      (dist_update
         (dist_update (dist_new (dist_class (target_dist self0))) py_True)
         py_False)
      0 [] in
  (exists s, b = Branch s (NLeaf fresh) (NLeaf fresh) (tree self0)) /\
  dist_class (target_dist fresh) = dist_class (target_dist self0) /\
  target_dist fresh
  = dist_update (dist_update (mkDist (dist_class (target_dist self0))
                                (dnew (dist_class (target_dist self0))))
                   py_True) py_False.
Proof.
  intros Hret fresh. split; [|split; reflexivity].
  unfold Leaf_update in Hret.
  destruct (not_authorized (absorb self0 x y)) as [[|]|e]; cbn in Hret;
    try discriminate.
  destruct (find_best_split (absorb self0 x y)) as [searched [[s margin]|e]];
    cbn in Hret; try discriminate.
  destruct (hoeffding_bound (absorb self0 x y)) as [eps|e]; cbn in Hret;
    try discriminate.
  destruct (float_gt margin (Fin eps) || Rltb eps _); cbn in Hret;
    try discriminate.
  injection Hret as <-. exists s. reflexivity.
Qed.

(** C5: over a continuous target the leaf is never pure, [hoeffding_bound]
    raises [ValueError] from its class count, and an [update] that reaches
    the split check (depth below [max_depth], [n_samples] an exact multiple
    of [patience]) raises: [RuntimeError] when the search finds no
    candidate, the [ValueError] of the bound otherwise.  No [update] of such
    a leaf returns a new node. *)
Theorem continuous_leaf_raises_at_split_check self0 x y :
  isinstance_continuous (target_dist self0) = true ->
  let self := absorb self0 x y in
  is_pure self = Ok false /\
  hoeffding_bound self = Raise ValueError /\
  ((depth self < max_depth (tree self))%Z ->
   (patience (tree self) <> 0)%Z ->
   (n_samples self mod patience (tree self) = 0)%Z ->
   ret (Leaf_update self0 x y)
   = match snd (find_best_split self) with
     | Ok _ => Raise ValueError
     | Raise _ => Raise RuntimeError
     end) /\
  ((depth self < max_depth (tree self))%Z ->
   (patience (tree self) | n_samples self)%Z ->
   exists e, ret (Leaf_update self0 x y) = Raise e) /\
  (forall b, ret (Leaf_update self0 x y) <> Ok (New b)).
Proof.
  intros Hc self.
  assert (Hc' : isinstance_continuous (target_dist self) = true) by exact Hc.
  assert (Hpure : is_pure self = Ok false) by (rewrite is_pure_value, Hc'; reflexivity).
  assert (Hb : hoeffding_bound self = Raise ValueError).
  { unfold hoeffding_bound, n_classes. rewrite Hc'. reflexivity. }
  assert (Hcheck : (depth self < max_depth (tree self))%Z ->
                   (patience (tree self) <> 0)%Z ->
                   (n_samples self mod patience (tree self) = 0)%Z ->
                   ret (Leaf_update self0 x y)
                   = match snd (find_best_split self) with
                     | Ok _ => Raise ValueError
                     | Raise _ => Raise RuntimeError
                     end).
  { intros Hd Hp Hm.
    rewrite Leaf_update_searches by (repeat split; assumption).
    fold self. cbv zeta. rewrite Hb.
    pose proof (find_best_split_result self) as Hres.
    destruct (snd (find_best_split self)) as [[s margin]|e]; [reflexivity|].
    destruct (fold_left _ (candidates self) _) as [[bg sbg] [s|]];
      [discriminate | now injection Hres as ->]. }
  split; [exact Hpure|]. split; [exact Hb|]. split; [exact Hcheck|]. split.
  - intros Hd Hdiv.
    destruct (Z.eq_dec (patience (tree self)) 0) as [Hp|Hp].
    + exists ZeroDivisionError. unfold Leaf_update. fold self.
      unfold not_authorized, py_mod. rewrite Hpure, Hp. cbn [rbind].
      destruct (Z.geb_spec (depth self) (max_depth (tree self))); [lia|].
      reflexivity.
    + rewrite Hcheck; [| assumption | assumption |].
      * destruct (snd (find_best_split self)); eexists; reflexivity.
      * apply Z.mod_divide; assumption.
  - intros b Hret. unfold Leaf_update in Hret. fold self in Hret.
    destruct (not_authorized self) as [[|]|e]; cbn in Hret; try discriminate.
    destruct (find_best_split self) as [searched [[s margin]|e]];
      cbn in Hret; try discriminate.
    rewrite Hb in Hret. discriminate.
Qed.

(** *** Branches *)

(** A call of [update] on a tree returns or raises as the [update] of the
    leaf the example is routed to; a branch on the way answers [Self]. *)
Lemma update_through_branches (n : node feature obj) x y :
  match ret (Leaf_update (get_leaf n x) x y) with
  | Raise e => ret (update n x y) = Raise e
  | Ok rf => ret (update n x y) = Ok (match n with NLeaf _ => rf | _ => Self end)
  end.
Proof.
  induction n as [l|s l IHl r IHr t]; cbn [update get_leaf].
  - destruct (ret (Leaf_update l x y)); reflexivity.
  - destruct (split_call s x).
    + destruct (ret (Leaf_update (get_leaf l x) x y)) as [rf|e];
        rewrite IHl; reflexivity.
    + destruct (ret (Leaf_update (get_leaf r x) x y)) as [rf|e];
        rewrite IHr; reflexivity.
Qed.

(** C7: [find_best_split] raises exactly when the enumerators propose no
    candidate at all, and then it raises [RuntimeError]; with at least one
    candidate it returns the first candidate of highest gain and the margin
    between that gain and the highest gain among the other candidates.  The
    error ends the [update] of the leaf and of every branch above it. *)
Theorem find_best_split_raises_iff_no_candidate self :
  ((exists e, snd (find_best_split self) = Raise e) <-> candidates self = []) /\
  (candidates self = [] -> snd (find_best_split self) = Raise RuntimeError) /\
  (candidates self <> [] ->
   exists before s after,
     candidates self = before ++ s :: after /\
     (forall c, In c (candidates self) -> gain self c <= gain self s) /\
     (forall c, In c before -> gain self c < gain self s) /\
     snd (find_best_split self)
     = Ok (s, float_sub (Fin (gain self s))
                (highest (map (gain self) (before ++ after))))) /\
  (forall (n : node feature obj) x y,
     self = absorb (get_leaf n x) x y ->
     reaches_split_check self ->
     candidates self = [] ->
     ret (update n x y) = Raise RuntimeError).
Proof.
  split; [|split; [|split]].
  - split.
    + intros [e He]. destruct (candidates self) as [|c cs] eqn:Hcs; [reflexivity|].
      destruct (find_best_split_found self) as (? & ? & ? & _ & _ & _ & Hres);
        [congruence|].
      rewrite Hres in He. discriminate.
    + intros H. exists RuntimeError. now apply find_best_split_empty.
  - apply find_best_split_empty.
  - intros Hne.
    destruct (find_best_split_found self Hne)
      as (before & s & after & Hcs & Hb & Ha & Hres).
    exists before, s, after. repeat split; auto.
    intros c Hc. rewrite Hcs in Hc.
    apply in_app_or in Hc as [Hc|[<-|Hc]];
      [specialize (Hb _ Hc) | | specialize (Ha _ Hc)]; lra.
  - intros n x y -> Hreach Hcs.
    pose proof (update_through_branches n x y) as H.
    rewrite (Leaf_update_searches _ _ _ Hreach) in H. cbv zeta in H.
    rewrite (find_best_split_empty _ Hcs) in H. exact H.
Qed.


End TreeProperties.

(** *** Dicts *)

Section DictProperties.
Context {K V : Type} {KE : EqDec K}.

Lemma dict_get_in_keys (k : K) (d : list (K * V)) :
  In k (dict_keys d) <-> exists v, dict_get k d = Some v.
Proof.
  induction d as [|[k' v'] d IH]; cbn.
  - split; [intros [] | intros [v Hv]; discriminate].
  - destruct (eq_dec k k') as [->|Hne].
    + split; [intros _; now exists v' | intros _; now left].
    + rewrite <- IH. split; [intros [H|H]; [congruence | exact H] | now right].
Qed.

Lemma dict_get_in (k : K) (v : V) (d : list (K * V)) :
  dict_get k d = Some v -> In (k, v) d.
Proof.
  induction d as [|[k' v'] d IH]; cbn; [discriminate|].
  destruct (eq_dec k k') as [->|Hne].
  - intros [= ->]. now left.
  - intros H. right. auto.
Qed.

Lemma dict_keys_set (k : K) (v : V) (d : list (K * V)) :
  In k (dict_keys d) -> dict_keys (dict_set k v d) = dict_keys d.
Proof.
  induction d as [|[k' v'] d IH]; cbn; [intros []|].
  destruct (eq_dec k k') as [->|Hne]; cbn; [reflexivity|].
  intros [H|H]; [congruence|]. f_equal. auto.
Qed.

Lemma dict_keys_set_new (k : K) (v : V) (d : list (K * V)) :
  ~ In k (dict_keys d) -> dict_keys (dict_set k v d) = dict_keys d ++ [k].
Proof.
  induction d as [|[k' v'] d IH]; cbn; [reflexivity|].
  destruct (eq_dec k k') as [->|Hne]; cbn; [tauto|].
  intros H. f_equal. apply IH. tauto.
Qed.

Lemma dict_set_in (k k' : K) (v v' : V) (d : list (K * V)) :
  In (k', v') (dict_set k v d) -> (k', v') = (k, v) \/ In (k', v') d.
Proof.
  induction d as [|[k0 v0] d IH]; cbn.
  - intros [H|[]]; auto.
  - destruct (eq_dec k k0) as [->|Hne]; cbn.
    + intros [H|H]; auto.
    + intros [H|H]; auto. destruct (IH H); auto.
Qed.

Lemma dict_set_NoDup (k : K) (v : V) (d : list (K * V)) :
  NoDup (dict_keys d) -> NoDup (dict_keys (dict_set k v d)).
Proof.
  intros Hnd. destruct (in_dec eq_dec k (dict_keys d)) as [Hin|Hnin].
  - now rewrite dict_keys_set.
  - rewrite dict_keys_set_new by assumption.
    apply NoDup_app; [assumption | repeat constructor; intros [] | ].
    intros a Ha [<-|[]]. contradiction.
Qed.

Lemma dict_get_app_new (k : K) (d1 d2 : list (K * V)) :
  ~ In k (dict_keys d1) -> dict_get k (d1 ++ d2) = dict_get k d2.
Proof.
  induction d1 as [|[k' v'] d1 IH]; cbn; [reflexivity|].
  destruct (eq_dec k k') as [->|Hne]; [tauto|]. intros H. apply IH. tauto.
Qed.

Lemma dict_set_app_new (k : K) (v : V) (d1 d2 : list (K * V)) :
  ~ In k (dict_keys d1) -> dict_set k v (d1 ++ d2) = d1 ++ dict_set k v d2.
Proof.
  induction d1 as [|[k' v'] d1 IH]; cbn; [reflexivity|].
  destruct (eq_dec k k') as [->|Hne]; [tauto|]. intros H. f_equal. apply IH. tauto.
Qed.

End DictProperties.

(** *** Sums *)

Lemma sum_from (l : list R) (a : R) : fold_left Rplus l a = a + sum l.
Proof.
  unfold sum. revert a. induction l as [|v l IH]; intros a; cbn; [lra|].
  rewrite (IH (a + v)), (IH (0 + v)). lra.
Qed.

Lemma sum_cons (v : R) (l : list R) : sum (v :: l) = v + sum l.
Proof. unfold sum at 1. cbn. rewrite sum_from. lra. Qed.

Lemma sum_nonneg (l : list R) : (forall v, In v l -> 0 <= v) -> 0 <= sum l.
Proof.
  induction l as [|v l IH]; intros H; [unfold sum; cbn; lra|].
  rewrite sum_cons. pose proof (H v (or_introl eq_refl)).
  assert (0 <= sum l) by (apply IH; intros; apply H; now right). lra.
Qed.

Lemma sum_scaled (f : R) (l : list R) : sum (map (fun v => v * f) l) = sum l * f.
Proof.
  induction l as [|v l IH]; [unfold sum; cbn; lra|].
  cbn [map]. rewrite !sum_cons, IH. lra.
Qed.

Lemma sum_constant (a : R) {A : Type} (l : list A) :
  sum (map (fun _ => a) l) = INR (length l) * a.
Proof.
  induction l as [|v l IH]; [unfold sum; cbn; lra|].
  cbn [map]. rewrite sum_cons, IH. cbn [length]. rewrite S_INR. lra.
Qed.

(** *** Naive-Bayes prediction *)

Section PredictionProperties.
Context {feature obj : Type} {FE : EqDec feature} {PO : PyObject obj}.
Context {D : Distribution obj} {SP : Splitting feature obj}.

Implicit Types (self : Leaf feature obj) (x : list (feature * obj)).
Implicit Types (d scores : list (obj * R)).

Lemma dict_keys_set_iff (k k' : obj) (v : R) d :
  In k' (dict_keys (dict_set k v d)) <-> k' = k \/ In k' (dict_keys d).
Proof.
  destruct (in_dec eq_dec k (dict_keys d)) as [Hin|Hnin].
  - rewrite dict_keys_set by assumption. split; [auto | intros [->|H]; auto].
  - rewrite dict_keys_set_new by assumption. rewrite in_app_iff. cbn.
    split; [intros [H|[H|[]]]; auto | intros [->|H]; auto].
Qed.

Lemma dict_set_nonneg (k : obj) (v : R) d :
  nonneg_values d -> 0 <= v -> nonneg_values (dict_set k v d).
Proof.
  intros Hd Hv k' v' Hin. apply dict_set_in in Hin as [[= -> ->]|Hin]; eauto.
Qed.

(** The dict comprehension of [predict]. *)
Lemma comprehension_spec (f : obj -> R) (l : list obj) d0 :
  (forall c, 0 <= f c) ->
  NoDup (dict_keys d0) -> nonneg_values d0 ->
  let d := fold_left (fun d c => dict_set c (f c) d) l d0 in
  NoDup (dict_keys d) /\ nonneg_values d /\
  forall k, In k (dict_keys d) <-> In k (dict_keys d0) \/ In k l.
Proof.
  intros Hf. revert d0. induction l as [|c l IH]; intros d0 Hnd Hnn; cbn.
  - split; [assumption | split; [assumption|]]. intros k. tauto.
  - destruct (IH (dict_set c (f c) d0)) as (H1 & H2 & H3).
    + now apply dict_set_NoDup.
    + now apply dict_set_nonneg.
    + split; [assumption | split; [assumption|]].
      intros k. rewrite H3, dict_keys_set_iff. intuition auto.
Qed.

Lemma predict_discrete self x :
  isinstance_continuous (target_dist self) = false ->
  (forall c, 0 <= dist_pmf (target_dist self) c) ->
  exists d,
    predict self x = Mapping d /\
    NoDup (dict_keys d) /\ nonneg_values d /\
    forall k, In k (dict_keys d) <-> In k (dist_iter (target_dist self)).
Proof.
  intros Hc Hpmf. unfold predict. rewrite Hc.
  eexists. split; [reflexivity|].
  destruct (comprehension_spec (dist_pmf (target_dist self))
              (dist_iter (target_dist self)) [] Hpmf) as (H1 & H2 & H3).
  - constructor.
  - intros ? ? [].
  - split; [assumption | split; [assumption|]].
    intros k. rewrite H3. cbn. tauto.
Qed.

(** Folding the items of one enumerator into the scores keeps the keys and
    the signs. *)
Lemma fold_items_spec (xi : obj) (items : list (obj * dist obj)) d :
  nonneg_values d ->
  (forall label dist,
     In (label, dist) items ->
     In label (dict_keys d) /\
     forall v, 0 <= dist_pdf dist v /\ 0 <= dist_pmf dist v) ->
  exists d',
    for_each (fold_in xi) items (Mapping d) = Ok (Mapping d') /\
    dict_keys d' = dict_keys d /\ nonneg_values d'.
Proof.
  revert d. induction items as [|[label dist] items IH]; intros d Hnn Hitems.
  - exists d. cbn. auto.
  - destruct (Hitems label dist (or_introl eq_refl)) as [Hin Hlik].
    apply dict_get_in_keys in Hin as [p Hp].
    cbn [for_each fold_in]. rewrite Hp. cbn [rbind].
    set (likelihood := if isinstance_continuous dist then dist_pdf dist xi
                       else dist_pmf dist xi).
    assert (Hl : 0 <= likelihood).
    { unfold likelihood. destruct (isinstance_continuous dist); apply Hlik. }
    assert (Hkeys : dict_keys (dict_set label (p * likelihood) d) = dict_keys d).
    { apply dict_keys_set. apply dict_get_in_keys. eauto. }
    destruct (IH (dict_set label (p * likelihood) d)) as (d' & Hd' & Hk' & Hn').
    + apply dict_set_nonneg; [assumption|].
      apply Rmult_le_pos; [|assumption]. eapply Hnn, dict_get_in, Hp.
    + intros l' d0 Hin'. rewrite Hkeys. apply Hitems. now right.
    + exists d'. rewrite Hd', Hk', Hkeys. auto.
Qed.

Lemma fold_features_spec self x d :
  nonneg_values d ->
  (forall i ss label dist,
     dict_get i (split_enums self) = Some ss ->
     In (label, dist) (enum_items ss) ->
     In label (dict_keys d) /\
     forall v, 0 <= dist_pdf dist v /\ 0 <= dist_pmf dist v) ->
  exists d',
    for_each (fold_feature self) x (Mapping d) = Ok (Mapping d') /\
    dict_keys d' = dict_keys d /\ nonneg_values d'.
Proof.
  revert d. induction x as [|[i xi] x IH]; intros d Hnn Henums.
  - exists d. cbn. auto.
  - cbn [for_each fold_feature].
    destruct (dict_get i (split_enums self)) as [ss|] eqn:Hss; cbn [rbind].
    + destruct (fold_items_spec xi (enum_items ss) d Hnn) as (d1 & Hd1 & Hk1 & Hn1).
      { intros label dist Hin. eapply Henums; eauto. }
      rewrite Hd1. cbn [rbind].
      destruct (IH d1 Hn1) as (d' & Hd' & Hk' & Hn').
      { intros i' ss' label dist Hget Hin. rewrite Hk1. eapply Henums; eauto. }
      exists d'. rewrite Hd', Hk', Hk1. auto.
    + apply IH; assumption.
Qed.

(** On a dict, [normalize] divides every value by the total. *)
Lemma normalize_map (total : R) d :
  NoDup (dict_keys d) ->
  normalize total d = map (fun kv => (fst kv, snd kv / total)) d.
Proof.
  intros Hnd. unfold normalize.
  assert (H : forall done todo,
             NoDup (dict_keys (done ++ todo)) ->
             fold_left
               (fun d item =>
                  match dict_get (fst item) d with
                  | Some p => dict_set (fst item) (p / total) d
                  | None => d
                  end)
               todo (map (fun kv => (fst kv, snd kv / total)) done ++ todo)
             = map (fun kv => (fst kv, snd kv / total)) (done ++ todo)).
  { intros done todo. revert done.
    induction todo as [|[k v] todo IH]; intros done Hnd'.
    - cbn. now rewrite !app_nil_r.
    - cbn [fold_left fst].
      assert (Hk : ~ In k (dict_keys (map (fun kv : obj * R => (fst kv, snd kv / total)) done))).
      { unfold dict_keys in *. rewrite map_map. cbn [fst].
        rewrite map_app in Hnd'. cbn [map fst] in Hnd'.
        apply NoDup_remove_2 in Hnd'. intros Hin. apply Hnd'.
        apply in_or_app. now left. }
      rewrite dict_get_app_new by exact Hk. cbn [dict_get].
      destruct (eq_dec k k) as [_|Hne]; [|contradiction].
      rewrite dict_set_app_new by exact Hk. cbn [dict_set].
      destruct (eq_dec k k) as [_|Hne]; [|contradiction].
      specialize (IH (done ++ [(k, v)])).
      rewrite <- app_assoc in IH. cbn [app] in IH.
      rewrite map_app in IH. cbn [map fst snd] in IH.
      rewrite <- app_assoc in IH. cbn [app] in IH.
      apply IH. exact Hnd'. }
  exact (H [] d Hnd).
Qed.

(** C6 (amended): on a leaf over a discrete target with at least one
    observed class, whose target distribution and per-class feature
    distributions give non-negative likelihoods and whose enumerators list
    observed classes only, [predict_naive_bayes] skips a feature without an
    enumerator, does not raise, and returns a dict over the observed classes
    whose values are non-negative and sum to 1: the uniform dict when the
    scores sum to exactly zero, every score divided by the total
    otherwise. *)
Theorem predict_naive_bayes_is_distribution self x :
  isinstance_continuous (target_dist self) = false ->
  dist_iter (target_dist self) <> [] ->
  (forall c, 0 <= dist_pmf (target_dist self) c) ->
  (forall i ss label dist,
     dict_get i (split_enums self) = Some ss ->
     In (label, dist) (enum_items ss) ->
     In label (dist_iter (target_dist self)) /\
     forall v, 0 <= dist_pdf dist v /\ 0 <= dist_pmf dist v) ->
  (forall y_pred i xi,
     dict_get i (split_enums self) = None ->
     fold_feature self y_pred (i, xi) = Ok y_pred) /\
  exists scores probs,
    for_each (fold_feature self) x (predict self x) = Ok (Mapping scores) /\
    predict_naive_bayes self x = Ok probs /\
    NoDup (dict_keys scores) /\
    (forall c, In c (dict_keys scores) <-> In c (dist_iter (target_dist self))) /\
    dict_keys probs = dict_keys scores /\
    (sum (dict_values scores) = 0 ->
     probs = map (fun kv => (fst kv, 1 / INR (length scores))) scores) /\
    (sum (dict_values scores) <> 0 ->
     probs = map (fun kv => (fst kv, snd kv / sum (dict_values scores))) scores) /\
    nonneg_values probs /\
    sum (dict_values probs) = 1.
Proof.
  intros Hc Hne Hpmf Henums. split.
  { intros y_pred i xi Hget. cbn [fold_feature]. now rewrite Hget. }
  destruct (predict_discrete self x Hc Hpmf) as (d0 & Hd0 & Hnd0 & Hnn0 & Hk0).
  destruct (fold_features_spec self x d0 Hnn0) as (scores & Hfold & Hkeys & Hnn).
  { intros i ss label dist Hget Hin.
    destruct (Henums i ss label dist Hget Hin) as [Hl Hv].
    split; [now apply Hk0 | exact Hv]. }
  assert (Hnd : NoDup (dict_keys scores)) by (now rewrite Hkeys).
  assert (Hlen : (0 < length scores)%nat).
  { destruct scores as [|kv scores]; [|cbn; lia].
    destruct (dist_iter (target_dist self)) as [|c l] eqn:Hiter; [contradiction|].
    exfalso. assert (Hin : In c (dict_keys d0)) by (apply Hk0; now left).
    rewrite <- Hkeys in Hin. destruct Hin. }
  assert (Htot : 0 <= sum (dict_values scores)).
  { apply sum_nonneg. intros v Hv. unfold dict_values in Hv.
    apply in_map_iff in Hv as ([k v'] & <- & Hin). eapply Hnn, Hin. }
  assert (Hres : predict_naive_bayes self x
                 = Ok (if Reqb (sum (dict_values scores)) 0
                       then map (fun kv => (fst kv, 1 / INR (length scores))) scores
                       else map (fun kv => (fst kv, snd kv / sum (dict_values scores)))
                              scores)).
  { unfold predict_naive_bayes. rewrite Hd0, Hfold. cbn [rbind].
    destruct (Reqb (sum (dict_values scores)) 0).
    - unfold dict_keys. now rewrite map_map.
    - now rewrite normalize_map. }
  eexists scores, _. split; [now rewrite Hd0|]. split; [exact Hres|].
  split; [exact Hnd|]. split; [intros c; rewrite Hkeys; apply Hk0|].
  unfold Reqb. destruct (Req_dec_T (sum (dict_values scores)) 0) as [Hz|Hnz].
  - (* the scores sum to zero: uniform *)
    assert (Hn : 0 < INR (length scores)) by (now apply lt_0_INR).
    split; [unfold dict_keys; rewrite map_map; reflexivity|].
    split; [reflexivity|]. split; [contradiction|]. split.
    + intros k v Hin. apply in_map_iff in Hin as (kv & [= _ <-] & _).
      apply Rle_mult_inv_pos; lra.
    + unfold dict_values. rewrite map_map. cbn [snd].
      rewrite sum_constant. field. lra.
  - (* normalization *)
    split; [unfold dict_keys; rewrite map_map; reflexivity|].
    split; [contradiction|]. split; [reflexivity|]. split.
    + intros k v Hin. apply in_map_iff in Hin as ([k' v'] & [= _ <-] & Hin).
      cbn [snd]. apply Rle_mult_inv_pos; [eapply Hnn, Hin | lra].
    + unfold dict_values. rewrite map_map. cbn [snd].
      rewrite <- (map_map snd (fun v => v / sum (map snd scores))).
      unfold Rdiv. rewrite sum_scaled. fold (dict_values scores).
      field. exact Hnz.
Qed.

End PredictionProperties.

(** ** Further properties of the module *)

Section DictLookup.
Context {K V : Type} {KE : EqDec K}.

Lemma dict_get_set (j k : K) (v : V) (d : list (K * V)) :
  dict_get j (dict_set k v d) = if eq_dec j k then Some v else dict_get j d.
Proof.
  induction d as [|[k' v'] d IH]; cbn.
  - destruct (eq_dec j k); reflexivity.
  - destruct (eq_dec k k') as [->|Hkk']; cbn.
    + destruct (eq_dec j k'); reflexivity.
    + destruct (eq_dec j k') as [->|Hjk'].
      * destruct (eq_dec k' k) as [Heq|_]; [congruence | reflexivity].
      * exact IH.
Qed.

Lemma dict_get_none (k : K) (d : list (K * V)) :
  dict_get k d = None <-> ~ In k (dict_keys d).
Proof.
  rewrite dict_get_in_keys. split.
  - intros H [v Hv]. congruence.
  - intros H. destruct (dict_get k d) as [v|]; [|reflexivity].
    exfalso. apply H. now exists v.
Qed.

End DictLookup.

Section GrowthProperties.
Context {feature obj : Type} {FE : EqDec feature} {PO : PyObject obj}.
Context {D : Distribution obj} {SP : Splitting feature obj}.

Implicit Types (self : Leaf feature obj) (x : list (feature * obj)) (y : obj).
Implicit Types (n : node feature obj).

(** *** What a call of [update] on a leaf can do *)

(** The three ways [update] ends on a leaf. *)
Lemma Leaf_update_outcome self0 x y :
  let self := absorb self0 x y in
  let c := Leaf_update self0 x y in
  post c = NLeaf self /\
  ((ret c = Ok Self /\
    (log c = [] \/ log c = fst (find_best_split self))) \/
   (exists s margin eps,
      reaches_split_check self /\
      snd (find_best_split self) = Ok (s, margin) /\
      hoeffding_bound self = Ok eps /\
      ret c = Ok (New (Branch s (child self) (child self) (tree self))) /\
      log c = fst (find_best_split self) ++ [Printed s]) \/
   (exists e,
      ret c = Raise e /\
      (log c = [] \/ log c = fst (find_best_split self)))).
Proof.
  intros self c. subst c. unfold Leaf_update. fold self.
  destruct (not_authorized self) as [[|]|e] eqn:Hauth; cbn [post ret log].
  - split; [reflexivity|]. left. auto.
  - apply not_authorized_false in Hauth.
    destruct (find_best_split self) as [searched [[s margin]|e]] eqn:Hsearch;
      cbn [post ret log fst snd].
    + destruct (hoeffding_bound self) as [eps|e] eqn:Heps; cbn [post ret log].
      * destruct (float_gt margin (Fin eps) || Rltb eps (tie_threshold (tree self)));
          cbn [post ret log]; (split; [reflexivity|]).
        -- right. left. exists s, margin, eps. auto.
        -- left. auto.
      * split; [reflexivity|]. right. right. exists e. auto.
    + split; [reflexivity|]. right. right. exists e. auto.
  - split; [reflexivity|]. right. right. exists e. auto.
Qed.

(** *** Growth of the tree *)

(** What the caller holds in the slot of a leaf after [update]. *)
Lemma installed_Leaf_update self0 x y :
  let self := absorb self0 x y in
  (exists s,
     ret (Leaf_update self0 x y)
     = Ok (New (Branch s (child self) (child self) (tree self))) /\
     installed (Leaf_update self0 x y)
     = Branch s (child self) (child self) (tree self) /\
     reaches_split_check self) \/
  ((forall b, ret (Leaf_update self0 x y) <> Ok (New b)) /\
   installed (Leaf_update self0 x y) = NLeaf self).
Proof.
  intros self.
  destruct (Leaf_update_outcome self0 x y)
    as [Hpost [[Hret _] | [(s & m & eps & Hreach & _ & _ & Hret & _) | (e & Hret & _)]]];
    fold self in Hpost; unfold installed; rewrite Hret.
  - right. split; [discriminate | exact Hpost].
  - left. exists s. auto.
  - right. split; [discriminate | exact Hpost].
Qed.

(** What the caller holds in the slot of a branch after [update]: the
    branch, with the selected child replaced by what that child's slot
    holds. *)
Lemma installed_Branch_update s (l r : node feature obj) t x y :
  installed (update (Branch s l r t) x y)
  = if split_call s x then Branch s (installed (update l x y)) r t
    else Branch s l (installed (update r x y)) t.
Proof.
  cbn [update]. destruct (split_call s x).
  - destruct (ret (update l x y)) as [rf|e] eqn:Hret; [reflexivity|].
    unfold installed. cbn [ret post]. now rewrite Hret.
  - destruct (ret (update r x y)) as [rf|e] eqn:Hret; [reflexivity|].
    unfold installed. cbn [ret post]. now rewrite Hret.
Qed.

(** X1: a tree has at least one leaf, and one [update] adds exactly one
    leaf when the leaf the example is routed to splits and none otherwise,
    also when the call raises. *)
Theorem update_adds_one_leaf_on_split n x y :
  (1 <= size n)%Z /\
  size (installed (update n x y))
  = (size n
     + match ret (Leaf_update (get_leaf n x) x y) with
       | Ok (New _) => 1
       | _ => 0
       end)%Z.
Proof.
  split.
  { induction n as [l|s l IHl r IHr t]; cbn [size]; lia. }
  induction n as [l|s l IHl r IHr t].
  - cbn [update get_leaf size].
    destruct (installed_Leaf_update l x y) as [(s & Hret & Hinst & _) | [Hret Hinst]];
      rewrite Hinst.
    + rewrite Hret. reflexivity.
    + destruct (ret (Leaf_update l x y)) as [[|b]|e]; try reflexivity.
      now destruct (Hret b).
  - rewrite installed_Branch_update. cbn [get_leaf size].
    destruct (split_call s x); cbn [size]; [rewrite IHl | rewrite IHr]; lia.
Qed.

(** X2: after [update], the tree routes the example to the leaf that
    absorbed it, or, when that leaf split, to a fresh child one level
    below, which holds none of the example. *)
Theorem update_reaches_the_routed_leaf n x y :
  get_leaf (installed (update n x y)) x
  = match ret (Leaf_update (get_leaf n x) x y) with
    | Ok (New _) =>
        Leaf_init (depth (get_leaf n x) + 1) (tree (get_leaf n x))
          (child_dist (get_leaf n x))
    | _ => absorb (get_leaf n x) x y
    end.
Proof.
  induction n as [l|s l IHl r IHr t].
  - cbn [update get_leaf].
    destruct (installed_Leaf_update l x y) as [(s & Hret & Hinst & _) | [Hret Hinst]];
      rewrite Hinst.
    + rewrite Hret. cbn [get_leaf child]. destruct (split_call s x); reflexivity.
    + destruct (ret (Leaf_update l x y)) as [[|b]|e]; try reflexivity.
      now destruct (Hret b).
  - rewrite installed_Branch_update. cbn [get_leaf].
    destruct (split_call s x) eqn:Hs; cbn [get_leaf]; rewrite Hs; assumption.
Qed.

(** X3: a call of [update] on a tree does what the [update] of the routed
    leaf does and nothing more: the same searches and [print], the same
    exception if that one raises; a branch answers with itself
    otherwise. *)
Theorem update_acts_as_the_routed_leaf n x y :
  log (update n x y) = log (Leaf_update (get_leaf n x) x y) /\
  ret (update n x y)
  = match n, ret (Leaf_update (get_leaf n x) x y) with
    | NLeaf _, r => r
    | Branch _ _ _ _, Ok _ => Ok Self
    | Branch _ _ _ _, Raise e => Raise e
    end.
Proof.
  split.
  - induction n as [l|s l IHl r IHr t]; cbn [update get_leaf]; [reflexivity|].
    destruct (split_call s x).
    + destruct (ret (update l x y)); cbn [log]; assumption.
    + destruct (ret (update r x y)); cbn [log]; assumption.
  - destruct n as [l|s l r t]; [reflexivity|].
    pose proof (update_through_branches (Branch s l r t) x y) as H.
    destruct (ret (Leaf_update (get_leaf (Branch s l r t) x) x y)); exact H.
Qed.

(** X4: [update] keeps the tree levelled: once every leaf records the level
    it sits at and every node refers to the same configuration, they do so
    after any [update], split or not. *)
Theorem update_keeps_levels (d : Z) (t : Tree obj) n x y :
  levelled d t n -> levelled d t (installed (update n x y)).
Proof.
  revert d. induction n as [l|s l IHl r IHr t']; intros d Hlev.
  - cbn [update]. destruct Hlev as [Hd Ht].
    destruct (installed_Leaf_update l x y) as [(s & _ & Hinst & _) | [_ Hinst]];
      rewrite Hinst; cbn; rewrite ?Hd, ?Ht; auto.
  - rewrite installed_Branch_update. destruct Hlev as (Ht & Hl & Hr).
    destruct (split_call s x); cbn [levelled]; auto.
Qed.

(** X5: [update] never builds a leaf below the depth limit: if no leaf of
    the tree is deeper than [max_depth], none is after any [update]. *)
Theorem update_respects_max_depth n x y :
  all_leaves (fun l => (depth l <= max_depth (tree l))%Z) n ->
  all_leaves (fun l => (depth l <= max_depth (tree l))%Z)
    (installed (update n x y)).
Proof.
  induction n as [l|s l IHl r IHr t]; intros Hall.
  - cbn [update]. cbn in Hall.
    destruct (installed_Leaf_update l x y) as [(s & _ & Hinst & Hreach) | [_ Hinst]];
      rewrite Hinst; cbn; [|exact Hall].
    destruct Hreach as (Hd & _). cbn in Hd. lia.
  - rewrite installed_Branch_update. destruct Hall as [Hl Hr].
    destruct (split_call s x); cbn [all_leaves]; auto.
Qed.

(** *** The statistics a leaf absorbs *)

Lemma observe_sets y (enums : list (feature * enum)) (i : feature) (xi : obj) :
  observe y enums (i, xi)
  = dict_set i
      (enum_update
         (match dict_get i enums with
          | Some ss => ss
          | None => new_enum i xi
          end) xi y)
      enums.
Proof. unfold observe, new_enum. destruct (dict_get i enums); reflexivity. Qed.

(** X6: when the feature vector is a dict (no feature twice), [update]
    feeds the enumerator of every feature of the example exactly once with
    [(value, label)], creates it first if the leaf had none (histogram for a
    number, categorical otherwise), and leaves the enumerators of all other
    features as they were. *)
Theorem absorb_feeds_each_feature_once self x y :
  NoDup (dict_keys x) ->
  forall i,
    dict_get i (split_enums (absorb self x y))
    = match dict_get i x with
      | Some xi =>
          Some (enum_update
                  (match dict_get i (split_enums self) with
                   | Some ss => ss
                   | None => new_enum i xi
                   end) xi y)
      | None => dict_get i (split_enums self)
      end.
Proof.
  cbn [absorb split_enums]. generalize (split_enums self) as enums.
  induction x as [|[j xj] x IH]; intros enums Hnd i; [reflexivity|].
  cbn [fold_left]. cbn [dict_keys map fst] in Hnd.
  apply NoDup_cons_iff in Hnd as [Hj Hnd].
  rewrite (IH _ Hnd i), observe_sets, dict_get_set. cbn [dict_get].
  destruct (eq_dec i j) as [->|Hij]; [|reflexivity].
  apply dict_get_none in Hj. fold (dict_keys x) in Hj. now rewrite Hj.
Qed.

(** X7: [update] never removes or reorders an enumerator: the features the
    leaf knew keep their places, and the features it meets for the first
    time are added after them; the feature names stay distinct. *)
Theorem absorb_keeps_enumerator_order self x y :
  exists added,
    dict_keys (split_enums (absorb self x y))
    = dict_keys (split_enums self) ++ added /\
    (forall i, In i added <->
               In i (dict_keys x) /\ ~ In i (dict_keys (split_enums self))) /\
    (NoDup (dict_keys (split_enums self)) ->
     NoDup (dict_keys (split_enums (absorb self x y)))).
Proof.
  cbn [absorb split_enums]. generalize (split_enums self) as enums.
  induction x as [|[j xj] x IH]; intros enums.
  - exists []. cbn. rewrite app_nil_r. split; [reflexivity|].
    split; [intros i; tauto | auto].
  - cbn [fold_left]. rewrite observe_sets.
    set (v := enum_update _ xj y).
    destruct (IH (dict_set j v enums)) as (added & Hkeys & Hin & Hnd).
    destruct (in_dec eq_dec j (dict_keys enums)) as [Hj|Hj].
    + rewrite (dict_keys_set j v enums Hj) in Hkeys, Hin, Hnd.
      exists added. split; [exact Hkeys|]. split; [|exact Hnd].
      intros i. rewrite Hin. cbn [dict_keys map fst].
      split; [intros [H1 H2]; split; [now right | exact H2]|].
      intros [[<-|H1] H2]; [contradiction | auto].
    + rewrite (dict_keys_set_new j v enums Hj) in Hkeys, Hin, Hnd.
      exists (j :: added). split; [rewrite Hkeys, <- app_assoc; reflexivity|].
      split.
      * intros i. cbn [In dict_keys map fst]. rewrite Hin, in_app_iff. cbn [In].
        destruct (eq_dec i j) as [->|Hij]; [tauto|].
        split; [intros [H|[H1 H2]]; [congruence | tauto]|].
        intros [[H|H1] H2]; [congruence|]. right. split; [exact H1|].
        intros [H|[H|[]]]; [contradiction | congruence].
      * intros Hnd0. apply Hnd. apply NoDup_app; [exact Hnd0 | | ].
        -- repeat constructor. intros [].
        -- intros a Ha [<-|[]]. contradiction.
Qed.

(** *** Side effects and necessary conditions of a split *)

(** What a returned Hoeffding bound tells about the leaf. *)
Lemma hoeffding_bound_inversion self (eps : R) :
  hoeffding_bound self = Ok eps ->
  isinstance_continuous (target_dist self) = false /\
  (1 <= dist_len (target_dist self))%nat /\
  0 < confidence (tree self) /\
  n_samples self <> 0%Z /\
  0 <= radicand (dist_len (target_dist self)) (confidence (tree self))
         (n_samples self) /\
  eps = sqrt (radicand (dist_len (target_dist self)) (confidence (tree self))
                (n_samples self)).
Proof.
  unfold hoeffding_bound, n_classes, math_log, math_log2, math_sqrt, py_div, radicand.
  destruct (isinstance_continuous (target_dist self)); [discriminate|].
  cbn [rbind].
  destruct (Rleb (INR (dist_len (target_dist self))) 0) eqn:Hk; [discriminate|].
  cbn [rbind].
  destruct (Reqb (confidence (tree self)) 0) eqn:Hd0; [discriminate|].
  cbn [rbind].
  destruct (Rleb (1 / confidence (tree self)) 0) eqn:Hinv; [discriminate|].
  cbn [rbind].
  destruct (Reqb (IZR (2 * n_samples self)) 0) eqn:Hn; [discriminate|].
  cbn [rbind].
  destruct (Rltb _ 0) eqn:Hq; [discriminate|].
  intros [= <-].
  apply Rleb_false in Hk, Hinv. apply Reqb_false in Hd0, Hn.
  split; [reflexivity|]. split.
  { destruct (dist_len (target_dist self)); [cbn in Hk; lra | lia]. }
  split.
  { destruct (Rlt_dec 0 (confidence (tree self))) as [|Hneg]; [assumption|].
    exfalso. assert (Hlt : confidence (tree self) < 0) by lra.
    apply Rinv_lt_0_compat in Hlt. unfold Rdiv in Hinv. lra. }
  split.
  { intros Hz. apply Hn. rewrite Hz. reflexivity. }
  split; [|reflexivity].
  unfold Rltb in Hq. destruct (Rlt_dec _ 0); [discriminate | lra].
Qed.

(** X8: a leaf that splits has earned it: the leaf is below the depth
    limit, its sample count is a non-zero multiple of a non-zero patience,
    its target is discrete with at least two observed classes, some
    enumerator proposed a candidate and the confidence is positive. *)
Theorem split_needs_evidence self0 x y b :
  ret (Leaf_update self0 x y) = Ok (New b) ->
  let self := absorb self0 x y in
  (depth self < max_depth (tree self))%Z /\
  (patience (tree self) <> 0)%Z /\
  (n_samples self mod patience (tree self) = 0)%Z /\
  n_samples self <> 0%Z /\
  isinstance_continuous (target_dist self) = false /\
  (2 <= dist_len (target_dist self))%nat /\
  candidates self <> [] /\
  0 < confidence (tree self).
Proof.
  intros Hret self.
  destruct (Leaf_update_outcome self0 x y)
    as [_ [[Hr _] | [(s & m & eps & Hreach & Hfound & Heps & _) | (e & Hr & _)]]];
    try congruence.
  fold self in Hreach, Hfound, Heps.
  destruct Hreach as (Hd & Hpure & Hp & Hm).
  destruct (hoeffding_bound_inversion self eps Heps) as (Hc & _ & Hdelta & Hn & _).
  rewrite is_pure_value, Hc in Hpure. injection Hpure as Hpure.
  apply Nat.ltb_ge in Hpure.
  repeat (split; [assumption|]). split; [|assumption].
  intros Hnone. rewrite (find_best_split_empty self Hnone) in Hfound. discriminate.
Qed.

(** X9: whatever [update] does on a leaf (return the leaf, return a new
    branch, raise), the leaf has absorbed the example when the call ends;
    and the call prints a split exactly when it returns a new branch on that
    split. *)
Theorem update_absorbs_first_and_prints_on_split self0 x y :
  let self := absorb self0 x y in
  let c := Leaf_update self0 x y in
  post c = NLeaf self /\
  forall s,
    In (Printed s) (log c)
    <-> ret c = Ok (New (Branch s (child self) (child self) (tree self))).
Proof.
  intros self c.
  assert (Hsearch : forall s, ~ In (Printed s) (fst (find_best_split self))).
  { intros s. rewrite find_best_split_log. intros [H|H]; [discriminate|].
    apply in_map_iff in H as (ss & H & _). discriminate. }
  destruct (Leaf_update_outcome self0 x y)
    as [Hpost [[Hr Hlog] | [(s & m & eps & _ & _ & _ & Hr & Hlog) | (e & Hr & Hlog)]]];
    fold self c in Hpost, Hr, Hlog; (split; [exact Hpost|]); intros s'; rewrite Hr.
  - split; [|discriminate]. destruct Hlog as [-> | ->]; [intros [] | intros H].
    now destruct (Hsearch s').
  - rewrite Hlog, in_app_iff. cbn [In]. split.
    + intros [H|[[= ->]|[]]]; [now destruct (Hsearch s') | reflexivity].
    + intros [= ->]. right. now left.
  - split; [|discriminate]. destruct Hlog as [-> | ->]; [intros [] | intros H].
    now destruct (Hsearch s').
Qed.

(** X10: with a patience of zero, a leaf below the depth limit that is not
    pure cannot be updated: every [update] raises [ZeroDivisionError] from
    the cadence test, after absorbing the example and before any search. *)
Theorem zero_patience_raises self0 x y :
  let self := absorb self0 x y in
  patience (tree self) = 0%Z ->
  (depth self < max_depth (tree self))%Z ->
  is_pure self = Ok false ->
  Leaf_update self0 x y = mkCall (NLeaf self) [] (Raise ZeroDivisionError).
Proof.
  intros self Hp Hd Hpure. unfold Leaf_update. fold self.
  unfold not_authorized, py_mod. rewrite Hpure, Hp. cbn [rbind].
  destruct (Z.geb_spec (depth self) (max_depth (tree self))); [lia|].
  reflexivity.
Qed.

(** *** The domain of the Hoeffding bound *)

(** X11: when [hoeffding_bound] returns, the value is non-negative, and the
    leaf has a discrete target with at least one class, at least one
    sample counted (a non-zero [n_samples]) and a positive confidence; the
    value is then the square root of
    [ln(k)^2 * log2(1 / confidence) / (2 * n_samples)]. *)
Theorem hoeffding_bound_is_nonnegative self (eps : R) :
  hoeffding_bound self = Ok eps ->
  0 <= eps /\
  isinstance_continuous (target_dist self) = false /\
  (1 <= dist_len (target_dist self))%nat /\
  0 < confidence (tree self) /\
  n_samples self <> 0%Z /\
  eps * eps
  = ln (INR (dist_len (target_dist self))) ^ 2
    * (ln (1 / confidence (tree self)) / ln 2)
    / IZR (2 * n_samples self).
Proof.
  intros H.
  destruct (hoeffding_bound_inversion self eps H)
    as (Hc & Hk & Hd & Hn & Hq & ->).
  split; [apply sqrt_pos|]. repeat (split; [assumption|]).
  rewrite sqrt_sqrt by assumption. reflexivity.
Qed.

(** X12: on a discrete target, [hoeffding_bound] raises [ValueError] when
    no class has been observed, when the confidence is negative, and when
    the confidence exceeds 1 with two or more classes and a positive sample
    count (the square root of a negative number); it raises
    [ZeroDivisionError] when the confidence is zero and when no sample has
    been counted. *)
Theorem hoeffding_bound_domain_errors self :
  isinstance_continuous (target_dist self) = false ->
  let k := dist_len (target_dist self) in
  let delta := confidence (tree self) in
  let n := n_samples self in
  (k = 0%nat -> hoeffding_bound self = Raise ValueError) /\
  ((1 <= k)%nat -> delta = 0 -> hoeffding_bound self = Raise ZeroDivisionError) /\
  ((1 <= k)%nat -> delta < 0 -> hoeffding_bound self = Raise ValueError) /\
  ((1 <= k)%nat -> 0 < delta -> n = 0%Z ->
   hoeffding_bound self = Raise ZeroDivisionError) /\
  ((2 <= k)%nat -> 1 < delta -> (0 < n)%Z ->
   hoeffding_bound self = Raise ValueError).
Proof.
  intros Hc k delta n.
  assert (Hstart : forall rest : R -> result R,
             (1 <= k)%nat ->
             (k0 <- n_classes self ;; R_ <- math_log (INR k0) ;; rest R_)
             = rest (ln (INR k))).
  { intros rest Hk. unfold n_classes. rewrite Hc. cbn [rbind]. fold k.
    rewrite math_log_pos by (apply lt_0_INR; lia). reflexivity. }
  unfold hoeffding_bound. split; [|split; [|split; [|split]]].
  - intros Hk. unfold n_classes. rewrite Hc. cbn [rbind]. fold k. rewrite Hk.
    unfold math_log, Rleb. cbn [INR].
    destruct (Rle_dec 0 0) as [_|H]; [reflexivity | lra].
  - intros Hk Hd. rewrite (Hstart _ Hk). fold delta. unfold py_div, Reqb.
    destruct (Req_dec_T delta 0) as [_|H]; [reflexivity | contradiction].
  - intros Hk Hd. rewrite (Hstart _ Hk). fold delta.
    rewrite py_div_nonzero by lra. cbn [rbind].
    assert (Hinv : 1 / delta < 0).
    { unfold Rdiv. rewrite Rmult_1_l. now apply Rinv_lt_0_compat. }
    unfold math_log2, Rleb.
    destruct (Rle_dec (1 / delta) 0) as [_|H]; [reflexivity | lra].
  - intros Hk Hd Hn. rewrite (Hstart _ Hk). fold delta n.
    rewrite py_div_nonzero by lra. cbn [rbind].
    rewrite math_log2_pos by (apply Rdiv_lt_0_compat; lra). cbn [rbind].
    rewrite Hn. unfold py_div, Reqb. cbn [Z.mul].
    destruct (Req_dec_T 0 0) as [_|H]; [reflexivity | contradiction].
  - intros Hk Hd Hn. rewrite (Hstart _ ltac:(lia)). fold delta n.
    rewrite py_div_nonzero by lra. cbn [rbind].
    assert (Hinv : 0 < 1 / delta < 1).
    { split; [apply Rdiv_lt_0_compat; lra|].
      apply Rmult_lt_reg_r with delta; [lra|]. field_simplify; lra. }
    rewrite math_log2_pos by lra. cbn [rbind].
    assert (H2n : 0 < IZR (2 * n)) by (apply IZR_lt; lia).
    rewrite py_div_nonzero by lra. cbn [rbind].
    assert (Hln : ln (1 / delta) < 0).
    { rewrite <- ln_1. apply ln_increasing; lra. }
    pose proof (ln_INR_pos k Hk) as HR. pose proof ln_2_pos as H2.
    assert (Hi2 : 0 < / ln 2) by (now apply Rinv_0_lt_compat).
    assert (Hin : 0 < / IZR (2 * n)) by (now apply Rinv_0_lt_compat).
    assert (Hlog2 : ln (1 / delta) / ln 2 < 0) by (unfold Rdiv; nra).
    assert (Hsq : 0 < ln (INR k) ^ 2) by nra.
    assert (Hnum : ln (INR k) ^ 2 * (ln (1 / delta) / ln 2) < 0) by nra.
    assert (Hq : ln (INR k) ^ 2 * (ln (1 / delta) / ln 2) / IZR (2 * n) < 0).
    { unfold Rdiv at 1. nra. }
    unfold math_sqrt, Rltb.
    destruct (Rlt_dec _ 0) as [_|H]; [reflexivity | contradiction].
Qed.

(** X13: wherever the bound of the specification is defined (a discrete
    target with at least one class, a confidence in (0, 1], a positive
    sample count), [hoeffding_bound] returns that bound divided by
    [sqrt (ln 2)], hence never less than it. *)
Theorem hoeffding_bound_above_spec self (k : nat) :
  isinstance_continuous (target_dist self) = false ->
  dist_len (target_dist self) = k ->
  (1 <= k)%nat ->
  0 < confidence (tree self) <= 1 ->
  (0 < n_samples self)%Z ->
  exists eps,
    hoeffding_bound self = Ok eps /\
    eps * sqrt (ln 2)
    = hoeffding_bound_spec k (confidence (tree self)) (n_samples self) /\
    hoeffding_bound_spec k (confidence (tree self)) (n_samples self) <= eps.
Proof.
  intros Hc Hlen Hk Hd Hn.
  exists (sqrt (radicand k (confidence (tree self)) (n_samples self))).
  split; [now apply hoeffding_bound_value|].
  pose proof (radicand_nonneg k _ _ Hd Hn) as Hq.
  pose proof ln_2_pos as H2. pose proof ln_2_lt_1 as H21.
  assert (H2n : 0 < IZR (2 * n_samples self)) by (apply IZR_lt; lia).
  assert (Heq : sqrt (radicand k (confidence (tree self)) (n_samples self))
                * sqrt (ln 2)
                = hoeffding_bound_spec k (confidence (tree self)) (n_samples self)).
  { rewrite <- sqrt_mult_alt by exact Hq. unfold hoeffding_bound_spec, radicand.
    f_equal. field. split; lra. }
  split; [exact Heq|]. rewrite <- Heq.
  assert (Hs : sqrt (ln 2) <= 1).
  { rewrite <- sqrt_1. apply sqrt_le_1_alt. lra. }
  pose proof (sqrt_pos (radicand k (confidence (tree self)) (n_samples self))).
  nra.
Qed.

(** *** The margin of the split search *)

Lemma highest_Permutation (l l' : list R) :
  Permutation l l' -> highest l = highest l'.
Proof.
  intros Hp. pose proof (highest_spec l) as H. pose proof (highest_spec l') as H'.
  destruct (highest l) as [| |h|], (highest l') as [| |h'|];
    try contradiction; try reflexivity.
  - subst l. destruct H' as [Hin _].
    apply Permutation_nil in Hp. subst l'. destruct Hin.
  - subst l'. destruct H as [Hin _].
    apply Permutation_sym, Permutation_nil in Hp. subst l. destruct Hin.
  - destruct H as [Hin Hle], H' as [Hin' Hle']. f_equal.
    pose proof (Hle' h (Permutation_in h Hp Hin)).
    pose proof (Hle h' (Permutation_in h' (Permutation_sym Hp) Hin')). lra.
Qed.

(** X14: the margin [find_best_split] returns is plus infinity when there
    is exactly one candidate and a non-negative finite number otherwise,
    which is zero exactly when another candidate has the gain of the
    returned one; it is never negative and never not-a-number. *)
Theorem margin_is_infinite_or_nonnegative self s margin :
  snd (find_best_split self) = Ok (s, margin) ->
  exists before after,
    candidates self = before ++ s :: after /\
    match before ++ after with
    | [] => margin = PInf
    | _ =>
        exists r, margin = Fin r /\ 0 <= r /\
                  (r = 0 <-> exists c, In c (before ++ after) /\
                                       gain self c = gain self s)
    end.
Proof.
  intros Hfound.
  destruct (candidates self) as [|c0 cs] eqn:Hcs.
  { rewrite (find_best_split_empty self Hcs) in Hfound. discriminate. }
  destruct (find_best_split_found self) as (before & s' & after & Hsplit & Hb & Ha & Hres);
    [congruence|].
  rewrite Hres in Hfound. injection Hfound as -> <-.
  exists before, after. rewrite <- Hcs. split; [exact Hsplit|].
  pose proof (highest_spec (map (gain self) (before ++ after))) as Hh.
  destruct (before ++ after) as [|c1 others] eqn:Hothers; [reflexivity|].
  rewrite <- Hothers in *.
  assert (Hbound : forall c, In c (before ++ after) -> gain self c <= gain self s).
  { intros c Hc. apply in_app_or in Hc as [Hc|Hc];
      [specialize (Hb c Hc) | specialize (Ha c Hc)]; lra. }
  destruct (highest (map (gain self) (before ++ after))) as [| |h|];
    try contradiction.
  { rewrite Hothers in Hh. discriminate. }
  destruct Hh as [Hin Hle].
  apply in_map_iff in Hin as (c & Hgc & Hc).
  exists (gain self s - h). split; [reflexivity|].
  pose proof (Hbound c Hc). split; [lra|]. split.
  - intros Hz. exists c. split; [exact Hc | lra].
  - intros (c' & Hc' & Hgc').
    pose proof (Hle (gain self c') (in_map _ _ _ Hc')). lra.
Qed.

(** X15: the best gain and the margin depend on the gains of the
    candidates only, not on the order the enumerators propose them in: two
    searches over the same gains in different orders return the same margin
    and splits of the same gain. *)
Theorem margin_ignores_candidate_order self1 self2 s1 margin :
  Permutation (map (gain self1) (candidates self1))
    (map (gain self2) (candidates self2)) ->
  snd (find_best_split self1) = Ok (s1, margin) ->
  exists s2,
    snd (find_best_split self2) = Ok (s2, margin) /\
    gain self2 s2 = gain self1 s1.
Proof.
  intros Hperm Hfound.
  destruct (candidates self1) as [|c1 cs1] eqn:Hcs1.
  { rewrite (find_best_split_empty self1 Hcs1) in Hfound. discriminate. }
  destruct (find_best_split_found self1)
    as (b1 & s1' & a1 & Hsplit1 & Hb1 & Ha1 & Hres1); [congruence|].
  rewrite Hres1 in Hfound. injection Hfound as -> <-.
  rewrite <- Hcs1, Hsplit1 in Hperm.
  assert (Hne2 : candidates self2 <> []).
  { intros Hnil. rewrite Hnil in Hperm. cbn in Hperm.
    apply Permutation_sym, Permutation_nil in Hperm.
    rewrite map_app in Hperm. destruct (map (gain self1) b1); discriminate. }
  destruct (find_best_split_found self2 Hne2)
    as (b2 & s2 & a2 & Hsplit2 & Hb2 & Ha2 & Hres2).
  rewrite Hsplit2 in Hperm.
  assert (Hmax1 : forall g, In g (map (gain self1) (b1 ++ s1 :: a1)) ->
                            g <= gain self1 s1).
  { intros g Hg. apply in_map_iff in Hg as (c & <- & Hc).
    apply in_app_or in Hc as [Hc|[<-|Hc]];
      [specialize (Hb1 c Hc) | | specialize (Ha1 c Hc)]; lra. }
  assert (Hmax2 : forall g, In g (map (gain self2) (b2 ++ s2 :: a2)) ->
                            g <= gain self2 s2).
  { intros g Hg. apply in_map_iff in Hg as (c & <- & Hc).
    apply in_app_or in Hc as [Hc|[<-|Hc]];
      [specialize (Hb2 c Hc) | | specialize (Ha2 c Hc)]; lra. }
  assert (Hsame : gain self2 s2 = gain self1 s1).
  { assert (H12 : gain self1 s1 <= gain self2 s2).
    { apply Hmax2. eapply Permutation_in; [exact Hperm|].
      apply in_map, in_or_app. right. now left. }
    assert (H21 : gain self2 s2 <= gain self1 s1).
    { apply Hmax1. eapply Permutation_in; [exact (Permutation_sym Hperm)|].
      apply in_map, in_or_app. right. now left. }
    lra. }
  exists s2. split; [|exact Hsame].
  assert (Hothers : highest (map (gain self2) (b2 ++ a2))
                    = highest (map (gain self1) (b1 ++ a1))).
  { apply highest_Permutation.
    rewrite !map_app in *. cbn [map] in Hperm. rewrite Hsame in Hperm.
    exact (Permutation_sym (Permutation_app_inv _ _ _ _ _ Hperm)). }
  rewrite Hres2, Hsame, Hothers. reflexivity.
Qed.

(** *** Prediction *)

(** The dict comprehension of [predict], looked up. *)
Lemma comprehension_lookup (f : obj -> R) (l : list obj) (d0 : list (obj * R)) (c : obj) :
  dict_get c (fold_left (fun d c => dict_set c (f c) d) l d0)
  = if in_dec eq_dec c l then Some (f c) else dict_get c d0.
Proof.
  revert d0. induction l as [|a l IH]; intros d0; [reflexivity|].
  cbn [fold_left]. rewrite IH, dict_get_set.
  destruct (in_dec eq_dec c l) as [Hin|Hnin];
    destruct (in_dec eq_dec c (a :: l)) as [Hin'|Hnin']; try reflexivity.
  - exfalso. apply Hnin'. now right.
  - destruct Hin' as [->|Hin']; [|contradiction].
    destruct (eq_dec c c) as [_|Hne]; [reflexivity | contradiction].
  - destruct (eq_dec c a) as [->|_]; [|reflexivity].
    exfalso. apply Hnin'. now left.
Qed.

Lemma comprehension_NoDup (f : obj -> R) (l : list obj) (d0 : list (obj * R)) :
  NoDup (dict_keys d0) ->
  NoDup (dict_keys (fold_left (fun d c => dict_set c (f c) d) l d0)).
Proof.
  revert d0. induction l as [|a l IH]; intros d0 Hnd; [exact Hnd|].
  cbn [fold_left]. apply IH. now apply dict_set_NoDup.
Qed.

(** X16: [predict] never mixes its two shapes: over a continuous target it
    returns the mode as a scalar; over a discrete target it returns a dict
    without repeated keys in which every observed class, and no other value,
    is mapped to its probability mass. *)
Theorem predict_maps_each_class_to_its_pmf self x :
  match predict self x with
  | Scalar m =>
      isinstance_continuous (target_dist self) = true /\
      m = dist_mode (target_dist self)
  | Mapping d =>
      isinstance_continuous (target_dist self) = false /\
      NoDup (dict_keys d) /\
      (forall c, In c (dist_iter (target_dist self)) ->
                 dict_get c d = Some (dist_pmf (target_dist self) c)) /\
      (forall c, ~ In c (dist_iter (target_dist self)) -> dict_get c d = None)
  end.
Proof.
  unfold predict.
  destruct (isinstance_continuous (target_dist self)); [split; reflexivity|].
  split; [reflexivity|]. split; [apply comprehension_NoDup; constructor|].
  split; intros c Hc; rewrite comprehension_lookup;
    destruct (in_dec eq_dec c (dist_iter (target_dist self)));
    try reflexivity; contradiction.
Qed.

Lemma fold_items_scalar (xi : obj) (items : list (obj * dist obj)) (m : R) :
  for_each (fold_in xi) items (Scalar m)
  = match items with
    | [] => Ok (Scalar m)
    | _ :: _ => Raise TypeError
    end.
Proof. destruct items as [|[label dist] items]; reflexivity. Qed.

(** X17: over a continuous target [predict_naive_bayes] never returns: it
    raises [TypeError] as soon as a feature of the example has an enumerator
    with at least one item, and [AttributeError] when no feature has. *)
Theorem predict_naive_bayes_continuous_raises self x :
  isinstance_continuous (target_dist self) = true ->
  predict_naive_bayes self x
  = if existsb
         (fun ixi : feature * obj =>
            match dict_get (fst ixi) (split_enums self) with
            | Some ss => match enum_items ss with [] => false | _ => true end
            | None => false
            end) x
    then Raise TypeError
    else Raise AttributeError.
Proof.
  intros Hc. unfold predict_naive_bayes, predict. rewrite Hc.
  generalize (dist_mode (target_dist self)) as m. intros m.
  induction x as [|[i xi] x IH]; [reflexivity|].
  cbn [for_each fold_feature existsb fst].
  destruct (dict_get i (split_enums self)) as [ss|]; cbn [rbind orb].
  - rewrite fold_items_scalar.
    destruct (enum_items ss); cbn [rbind orb]; [exact IH | reflexivity].
  - exact IH.
Qed.

(** X18: only the features the leaf has an enumerator for take part in
    [predict_naive_bayes]: dropping every other feature from the example
    changes nothing, whether the call returns or raises. *)
Theorem predict_naive_bayes_ignores_unknown_features self x :
  predict_naive_bayes self x
  = predict_naive_bayes self
      (filter
         (fun ixi : feature * obj =>
            match dict_get (fst ixi) (split_enums self) with
            | Some _ => true
            | None => false
            end) x).
Proof.
  unfold predict_naive_bayes.
  change (predict self (filter _ x)) with (predict self x).
  generalize (predict self x) as y_pred.
  induction x as [|[i xi] x IH]; intros y_pred; [reflexivity|].
  cbn [filter fst]. cbn [for_each fold_feature] in *.
  destruct (dict_get i (split_enums self)) as [ss|] eqn:Hss.
  - cbn [for_each fold_feature]. rewrite Hss.
    destruct (for_each (fold_in xi) (enum_items ss) y_pred) as [y_pred'|e];
      cbn [rbind]; [apply IH | reflexivity].
  - cbn [rbind]. apply IH.
Qed.

Lemma predict_unobserved_class self x :
  isinstance_continuous (target_dist self) = false ->
  exists d,
    predict self x = Mapping d /\
    forall c, ~ In c (dist_iter (target_dist self)) -> dict_get c d = None.
Proof.
  intros Hc. unfold predict. rewrite Hc. eexists. split; [reflexivity|].
  intros c Hn. rewrite comprehension_lookup.
  destruct (in_dec eq_dec c (dist_iter (target_dist self)));
    [contradiction | reflexivity].
Qed.

(** X19: over a discrete target, [predict_naive_bayes] raises [KeyError]
    when the first feature of the example has an enumerator whose first item
    is a label the target distribution has not observed. *)
Theorem predict_naive_bayes_unobserved_label_raises self i xi x ss label d items :
  isinstance_continuous (target_dist self) = false ->
  dict_get i (split_enums self) = Some ss ->
  enum_items ss = (label, d) :: items ->
  ~ In label (dist_iter (target_dist self)) ->
  predict_naive_bayes self ((i, xi) :: x) = Raise KeyError.
Proof.
  intros Hc Hss Hitems Hlabel.
  pose proof (predict_unobserved_class self ((i, xi) :: x) Hc)
    as (y_pred & Hpred & Hnone).
  unfold predict_naive_bayes. rewrite Hpred.
  cbn [for_each fold_feature]. rewrite Hss, Hitems.
  cbn [for_each fold_in]. rewrite (Hnone label Hlabel). reflexivity.
Qed.

End GrowthProperties.

(** ** The examples, run through the tree *)

Module Examples.
Import Fixture.

Lemma leaf2_reaches_split_check : reaches_split_check leaf2.
Proof. repeat split; try reflexivity; discriminate. Qed.

Lemma leaf2_candidates : candidates leaf2 = [candidate1; candidate2].
Proof. reflexivity. Qed.

Lemma leaf2_search :
  snd (find_best_split leaf2) = Ok (candidate1, Fin (1 - 0 - (1 - 1))).
Proof.
  rewrite find_best_split_result, leaf2_candidates.
  cbn. decide_R; [lra | reflexivity].
Qed.

(** With two classes and a confidence of 1/2 the code takes the square root
    of [ln 2 ^ 2 / (2 * n)]: the base-2 logarithm of [1 / delta] is 1. *)
Lemma radicand_two_classes_half (n : Z) :
  (0 < n)%Z -> radicand 2 (1 / 2) n = ln 2 ^ 2 / IZR (2 * n).
Proof.
  intros Hn. unfold radicand.
  assert (H2n : 0 < IZR (2 * n)) by (apply IZR_lt; lia).
  replace (INR 2) with 2 by (simpl; lra).
  replace (1 / (1 / 2)) with 2 by field.
  pose proof ln_2_pos. field. split; lra.
Qed.

Lemma two_examples_bound (self : Leaf nat pyval) :
  isinstance_continuous (target_dist self) = false ->
  dist_len (target_dist self) = 2%nat ->
  confidence (tree self) = 1 / 2 ->
  n_samples self = 2%Z ->
  hoeffding_bound self = Ok (ln 2 / 2).
Proof.
  intros Hc Hlen Hd Hn.
  rewrite (hoeffding_bound_value self 2 Hc Hlen); [|lia|rewrite Hd; lra|lia].
  rewrite Hd, Hn, radicand_two_classes_half by lia.
  f_equal. pose proof ln_2_pos.
  replace (ln 2 ^ 2 / IZR (2 * 2)) with ((ln 2 / 2) * (ln 2 / 2))
    by (change (2 * 2)%Z with 4%Z; field).
  apply sqrt_square. lra.
Qed.

Lemma leaf2_bound : hoeffding_bound leaf2 = Ok (ln 2 / 2).
Proof. apply two_examples_bound; reflexivity. Qed.

Lemma second_example_splits :
  ret (Leaf_update leaf1 x2 (PBool false))
  = Ok (New (Branch candidate1 (child leaf2) (child leaf2) config)).
Proof.
  rewrite (Leaf_update_searches leaf1 x2 (PBool false) leaf2_reaches_split_check).
  change (absorb leaf1 x2 (PBool false)) with leaf2. cbv zeta.
  rewrite leaf2_search, leaf2_bound. cbn [float_gt].
  rewrite (proj2 (Rgtb_true _ _)) by (pose proof ln_2_lt_1; lra).
  reflexivity.
Qed.

Lemma bare2_reaches_split_check : reaches_split_check bare2.
Proof. repeat split; try reflexivity; discriminate. Qed.

Lemma bare2_bound : hoeffding_bound bare2 = Ok (ln 2 / 2).
Proof. apply two_examples_bound; reflexivity. Qed.

Lemma counting_pmf_nonneg (d : dist pyval) (v : pyval) : 0 <= dist_pmf d v.
Proof.
  unfold dist_pmf. cbn.
  pose proof (pos_INR (count v (dist_state d))) as Hc.
  pose proof (pos_INR (total (dist_state d))) as Ht.
  destruct Ht as [Ht|Ht].
  - apply Rle_mult_inv_pos; assumption.
  - rewrite <- Ht. unfold Rdiv. rewrite Rinv_0. lra.
Qed.

(** C1: on the root after two examples of two classes, with a confidence of
    1/2, [hoeffding_bound] returns [ln 2 / 2], the square root of
    [R^2 * log2 (1 / delta) / (2 * n)], and not the value
    [sqrt (R^2 * ln (1 / delta) / (2 * n))] of the specification. *)
Theorem hoeffding_bound_takes_log2 :
  isinstance_continuous (target_dist leaf2) = false /\
  dist_len (target_dist leaf2) = 2%nat /\
  n_samples leaf2 = 2%Z /\
  confidence (tree leaf2) = 1 / 2 /\
  hoeffding_bound leaf2 = Ok (ln 2 / 2) /\
  hoeffding_bound leaf2 <> Ok (hoeffding_bound_spec 2 (1 / 2) 2).
Proof.
  repeat (split; [reflexivity|]). split; [exact leaf2_bound|].
  rewrite leaf2_bound. intros [= H].
  pose proof ln_2_pos as Hpos. pose proof ln_2_lt_1 as Hlt.
  unfold hoeffding_bound_spec in H.
  replace (INR 2) with 2 in H by (simpl; lra).
  replace (1 / (1 / 2)) with 2 in H by field.
  change (2 * 2)%Z with 4%Z in H.
  assert (Hsq : (ln 2 / 2) * (ln 2 / 2) = ln 2 ^ 2 * ln 2 / 4).
  { rewrite H at 1 2. apply sqrt_sqrt.
    apply Rle_mult_inv_pos; [|lra]. apply Rmult_le_pos; [apply pow2_ge_0 | lra]. }
  assert (Hone : ln 2 * ln 2 * (1 - ln 2) = 0) by (field_simplify; lra).
  apply Rmult_integral in Hone as [Hone|Hone]; [|lra].
  apply Rmult_integral in Hone as [Hone|Hone]; lra.
Qed.

(** C2, as stated, fails when the patience is zero: the leaf is below the
    depth limit and not pure, its sample count 2 is not a multiple of 0,
    and [update] raises [ZeroDivisionError] instead of returning the leaf. *)
Lemma update_raises_when_patience_is_zero :
  let self := absorb impatient1 x2 (PBool false) in
  ~ ((depth self >= max_depth (tree self))%Z \/
     (isinstance_continuous (target_dist self) = false /\
      (dist_len (target_dist self) < 2)%nat) \/
     ~ (patience (tree self) | n_samples self)%Z ->
     ret (Leaf_update impatient1 x2 (PBool false)) = Ok Self).
Proof.
  intros self H.
  assert (Hraise : ret (Leaf_update impatient1 x2 (PBool false))
                   = Raise ZeroDivisionError) by reflexivity.
  rewrite Hraise in H.
  assert (Hfalse : @Raise (ref nat pyval) ZeroDivisionError = Ok Self);
    [|discriminate].
  apply H. right. right. intros [q Hq]. cbn in Hq. lia.
Qed.

Lemma update_returns_self_when_not_authorized_witness :
  Leaf_update root x1 (PBool true) = mkCall (NLeaf leaf1) [] (Ok Self).
Proof.
  apply (update_returns_self_when_not_authorized root x1 (PBool true)).
  right. left. split; [reflexivity | cbn; lia].
Defined.


Lemma split_children_are_fresh_witness :
  exists s,
    Branch candidate1 (child leaf2) (child leaf2) config
    = Branch s
        (NLeaf (mkLeaf 1 config
                  (dist_update (dist_update (dist_new Multinomial) (PBool true))
                     (PBool false))
                  0 []))
        (NLeaf (mkLeaf 1 config
                  (dist_update (dist_update (dist_new Multinomial) (PBool true))
                     (PBool false))
                  0 []))
        config.
Proof.
  exact (proj1 (split_children_are_fresh leaf1 x2 (PBool false) _
                  second_example_splits)).
Defined.

Lemma continuous_leaf_raises_at_split_check_witness :
  ret (Leaf_update numeric_root x1 (PBool true)) = Raise ValueError.
Proof.
  destruct (continuous_leaf_raises_at_split_check numeric_root x1 (PBool true)
              eq_refl) as (_ & _ & Hraise & _ & _).
  rewrite Hraise; [reflexivity | reflexivity | discriminate | reflexivity].
Defined.


Lemma find_best_split_raises_iff_no_candidate_witness :
  snd (find_best_split root) = Raise RuntimeError /\
  ret (update (NLeaf bare1) [] (PBool false)) = Raise RuntimeError.
Proof.
  split.
  - apply (proj1 (proj2 (find_best_split_raises_iff_no_candidate root))).
    reflexivity.
  - apply (proj2 (proj2 (proj2 (find_best_split_raises_iff_no_candidate
                                  (absorb bare1 [] (PBool false)))))).
    + reflexivity.
    + repeat split; try reflexivity; discriminate.
    + reflexivity.
Defined.


Lemma hoeffding_bound_strictly_decreasing_witness :
  exists eps2 eps3 : R,
    hoeffding_bound leaf2 = Ok eps2 /\
    hoeffding_bound leaf3 = Ok eps3 /\
    eps3 < eps2.
Proof.
  apply (hoeffding_bound_strictly_decreasing leaf2 leaf3 2 (1 / 2));
    try reflexivity; try lra; try lia.
  cbn. lia.
Defined.

(** C6, as stated, fails on a leaf that has seen no example: the target is
    discrete, the prediction is the empty dict, and its values sum to 0. *)
Lemma predict_naive_bayes_empty_on_fresh_leaf :
  isinstance_continuous (target_dist root) = false /\
  predict_naive_bayes root x1 = Ok [] /\
  ~ (exists probs,
       predict_naive_bayes root x1 = Ok probs /\
       nonneg_values probs /\ sum (dict_values probs) = 1).
Proof.
  assert (H : predict_naive_bayes root x1 = Ok []).
  { unfold predict_naive_bayes. cbn. unfold sum. cbn.
    decide_R; [reflexivity | contradiction]. }
  split; [reflexivity|]. split; [exact H|].
  intros (probs & Hp & _ & Hsum). rewrite H in Hp. injection Hp as <-.
  unfold sum in Hsum. cbn in Hsum. lra.
Qed.

(** A label the target distribution never saw makes [y_pred[label]] raise. *)
Lemma predict_naive_bayes_unknown_label :
  predict_naive_bayes stale x1 = Raise KeyError.
Proof. reflexivity. Qed.

Lemma predict_naive_bayes_is_distribution_witness :
  exists probs,
    predict_naive_bayes leaf1 x1 = Ok probs /\
    nonneg_values probs /\ sum (dict_values probs) = 1.
Proof.
  destruct (predict_naive_bayes_is_distribution leaf1 x1)
    as (_ & scores & probs & _ & Hp & _ & _ & _ & _ & _ & Hnn & Hsum).
  - reflexivity.
  - discriminate.
  - intros c. apply counting_pmf_nonneg.
  - intros i ss label dist Hget Hin. split.
    + destruct i as [|i]; [|discriminate].
      cbn in Hget. injection Hget as <-. cbn in Hin.
      destruct Hin as [[= <- _]|[]]. now left.
    + intros v. split; [cbn; lra | apply counting_pmf_nonneg].
  - exists probs. auto.
Defined.

End Examples.

(** ** More examples *)

Module MoreExamples.
Import Fixture Examples.

Lemma update_keeps_levels_witness :
  levelled 0 config (installed (update (NLeaf leaf1) x2 (PBool false))).
Proof.
  apply (update_keeps_levels 0 config (NLeaf leaf1) x2 (PBool false)).
  split; reflexivity.
Defined.

Lemma update_respects_max_depth_witness :
  all_leaves (fun l => (depth l <= max_depth (tree l))%Z)
    (installed (update (NLeaf leaf1) x2 (PBool false))).
Proof.
  apply (update_respects_max_depth (NLeaf leaf1) x2 (PBool false)).
  cbn. lia.
Defined.

Lemma absorb_feeds_each_feature_once_witness :
  dict_get 0%nat (split_enums (absorb root x1 (PBool true)))
  = Some (mkTable 0 [(PInt 1, PBool true)]).
Proof.
  rewrite (absorb_feeds_each_feature_once root x1 (PBool true)).
  - reflexivity.
  - repeat constructor. intros [].
Defined.

Lemma split_needs_evidence_witness :
  (2 <= dist_len (target_dist leaf2))%nat /\ candidates leaf2 <> [].
Proof.
  destruct (split_needs_evidence leaf1 x2 (PBool false) _ second_example_splits)
    as (_ & _ & _ & _ & _ & Hk & Hc & _).
  split; assumption.
Defined.

Lemma zero_patience_raises_witness :
  Leaf_update impatient1 x2 (PBool false)
  = mkCall (NLeaf (absorb impatient1 x2 (PBool false))) []
      (Raise ZeroDivisionError).
Proof.
  apply (zero_patience_raises impatient1 x2 (PBool false));
    [reflexivity | cbn; lia | reflexivity].
Defined.

Lemma hoeffding_bound_is_nonnegative_witness : 0 <= ln 2 / 2.
Proof.
  exact (proj1 (hoeffding_bound_is_nonnegative leaf2 (ln 2 / 2) leaf2_bound)).
Defined.

Lemma hoeffding_bound_domain_errors_witness :
  hoeffding_bound root = Raise ValueError.
Proof.
  apply (proj1 (hoeffding_bound_domain_errors root eq_refl)). reflexivity.
Defined.

Lemma hoeffding_bound_above_spec_witness :
  exists eps,
    hoeffding_bound leaf2 = Ok eps /\
    eps * sqrt (ln 2) = hoeffding_bound_spec 2 (1 / 2) 2 /\
    hoeffding_bound_spec 2 (1 / 2) 2 <= eps.
Proof.
  apply (hoeffding_bound_above_spec leaf2 2); try reflexivity; try lia.
  cbn. lra.
Defined.

Lemma margin_is_infinite_or_nonnegative_witness :
  exists before after,
    candidates leaf2 = before ++ candidate1 :: after /\
    match before ++ after with
    | [] => Fin (1 - 0 - (1 - 1)) = PInf
    | _ =>
        exists r, Fin (1 - 0 - (1 - 1)) = Fin r /\ 0 <= r /\
                  (r = 0 <-> exists c, In c (before ++ after) /\
                                       gain leaf2 c = gain leaf2 candidate1)
    end.
Proof.
  exact (margin_is_infinite_or_nonnegative leaf2 candidate1 _ leaf2_search).
Defined.

Lemma margin_ignores_candidate_order_witness :
  exists s2,
    snd (find_best_split swapped2) = Ok (s2, Fin (1 - 0 - (1 - 1))) /\
    gain swapped2 s2 = gain leaf2 candidate1.
Proof.
  apply (margin_ignores_candidate_order leaf2 swapped2 candidate1 _);
    [|exact leaf2_search].
  apply perm_swap.
Defined.

Lemma predict_naive_bayes_continuous_raises_witness :
  predict_naive_bayes (absorb numeric_root x1 (PBool true)) x1
  = Raise TypeError.
Proof.
  exact (predict_naive_bayes_continuous_raises
           (absorb numeric_root x1 (PBool true)) x1 eq_refl).
Defined.

Lemma predict_naive_bayes_unobserved_label_raises_witness :
  predict_naive_bayes stale x1 = Raise KeyError.
Proof.
  apply (predict_naive_bayes_unobserved_label_raises stale 0%nat (PInt 1) []
           (mkTable 0 [(PInt 1, PStr 5)]) (PStr 5)
           (dist_update (dist_new (D := counting) Multinomial) (PInt 1)) []);
    try reflexivity.
  intros [H|[]]. discriminate.
Defined.

End MoreExamples.
